(** * The random handout simulation (random_handout_problem.ipynb)

    A shallow embedding of the notebook's [simulate] generator and the
    properties its description states about it.

    Python integers are unbounded, so wealth is a [Z]; a distribution is a
    Python list, here a [list Z] read and updated by index.  The module
    [random] is a process-wide mutable generator: its state is passed
    explicitly, behind the interface [RandomSource].  Whatever can raise in
    Python returns a [result]. *)

From stdpp Require Import base numbers list sorting strings pretty gmap.

Local Open Scope Z_scope.

(** ** Exceptions and the state-and-exception monad *)

Inductive exn : Type :=
  | ValueError
  | IndexError
  | StopIteration.

Inductive result (A : Type) : Type :=
  | Ok (a : A)
  | Raise (e : exn).

Arguments Ok {A} a.
Arguments Raise {A} e.

(** A computation over the state [G] of the random module: it returns a
    value or raises, and leaves a state behind in both cases. *)
Definition M (G A : Type) : Type := G → result A * G.

Definition ret {G A} (a : A) : M G A := λ g, (Ok a, g).

Definition bind {G A B} (m : M G A) (k : A → M G B) : M G B :=
  λ g, match m g with
       | (Ok a, g') => k a g'
       | (Raise e, g') => (Raise e, g')
       end.

Definition lift {G A} (r : result A) : M G A := λ g, (r, g).

Notation "x <~ m ;; k" := (bind m (λ x, k))
  (at level 20, m at level 99, k at level 200, only parsing).

(** ** The interface of [random]

    [randint a b] returns an integer of [a..b], both ends included, and
    moves the generator on; on an empty range it raises [ValueError] and
    the generator stays where it was. *)
Class RandomSource (G : Type) : Type := {
  randint : Z → Z → M G Z;
  randint_range : ∀ a b g, a ≤ b → ∃ r, (randint a b g).1 = Ok r ∧ a ≤ r ≤ b;
  randint_empty : ∀ a b g, b < a → randint a b g = (Raise ValueError, g)
}.

(** ** Python lists *)

(** [[x] * n]: [n] copies of [x], none when [n] is zero or negative. *)
Definition list_mul (x : Z) (n : Z) : list Z := replicate (Z.to_nat n) x.

(** Truth value of an integer, as [if wealth:] takes it. *)
Definition truthy (w : Z) : bool := negb (w =? 0).

(** An index as a subscript resolves it: [0..len-1] as it is, [-len..-1]
    from the end, anything else is an [IndexError]. *)
Definition subscript (l : list Z) (i : Z) : result nat :=
  let len := Z.of_nat (length l) in
  if bool_decide (0 ≤ i < len) then Ok (Z.to_nat i)
  else if bool_decide (- len ≤ i < 0) then Ok (Z.to_nat (len + i))
  else Raise IndexError.

(** [l[i]] *)
Definition getitem (l : list Z) (i : Z) : result Z :=
  match subscript l i with
  | Ok n => match l !! n with Some v => Ok v | None => Raise IndexError end
  | Raise e => Raise e
  end.

(** [l[i] = v] *)
Definition setitem (l : list Z) (i : Z) (v : Z) : result (list Z) :=
  match subscript l i with
  | Ok n => Ok (<[n := v]> l)
  | Raise e => Raise e
  end.

(** [l[i] += d]: read the item, then store the sum. *)
Definition iadd_item (l : list Z) (i : Z) (d : Z) : result (list Z) :=
  match getitem l i with
  | Ok v => setitem l i (v + d)
  | Raise e => Raise e
  end.

(** ** The notebook's constants *)

Record config : Type := Config {
  INITWEALTH : Z;
  NUMPLAYERS : Z
}.

Definition notebook : config := {| INITWEALTH := 50; NUMPLAYERS := 100 |}.

(** ** The generator [simulate] *)

(** A generator object: not started yet, suspended at its [yield] holding
    the list it has just yielded, or finished by an exception. *)
Inductive generator : Type :=
  | Created
  | Suspended (next_step : list Z)
  | Closed.

Section Simulate.
Context {G : Type} `{!RandomSource G}.
Variable cfg : config.

(** [prev_step = [INITWEALTH]*NUMPLAYERS] *)
Definition simulate_init : list Z := list_mul (INITWEALTH cfg) (NUMPLAYERS cfg).

(** [next_step = [max(0, player_wealth - 1) for player_wealth in prev_step]] *)
Definition simulate_decrement (prev_step : list Z) : list Z :=
  (λ player_wealth, Z.max 0 (player_wealth - 1)) <$> prev_step.

(** The [for player, wealth in enumerate(prev_step)] loop, over what is
    left of [prev_step], on the list [next_step] built so far. *)
Fixpoint simulate_hand_out (prev_step next_step : list Z) : M G (list Z) :=
  match prev_step with
  | [] => ret next_step
  | wealth :: rest =>
      if truthy wealth then
        r <~ randint 0 (NUMPLAYERS cfg - 1) ;;
        next_step' <~ lift (iadd_item next_step r 1) ;;
        simulate_hand_out rest next_step'
      else simulate_hand_out rest next_step
  end.

(** One pass of the [while True:] body, up to its [yield]. *)
Definition simulate_step (prev_step : list Z) : M G (list Z) :=
  simulate_hand_out prev_step (simulate_decrement prev_step).

(** Running the generator from [prev_step] up to the next [yield]. *)
Definition run_to_yield (prev_step : list Z) (g : G)
  : result (list Z) * generator * G :=
  match simulate_step prev_step g with
  | (Ok next_step, g') => (Ok next_step, Suspended next_step, g')
  | (Raise e, g') => (Raise e, Closed, g')
  end.

(** [simulate()] only creates the generator; nothing runs yet. *)
Definition simulate : generator := Created.

(** [next(gen)].  After the [yield], [prev_step = next_step] and the loop
    goes round again.  The list yielded is the very list the generator goes
    on from; the notebook's consumer only reads it ([sorted] copies), so
    the generator keeps it as yielded. *)
Definition next (gen : generator) (g : G) : result (list Z) * generator * G :=
  match gen with
  | Created => run_to_yield simulate_init g
  | Suspended next_step => run_to_yield next_step g
  | Closed => (Raise StopIteration, Closed, g)
  end.

(** A consumer that asks [k] times, as the drawing loop does: the
    snapshots in the order they came, or the first exception. *)
Fixpoint pulls (k : nat) (gen : generator) (g : G)
  : result (list (list Z)) * generator * G :=
  match k with
  | O => (Ok [], gen, g)
  | S k' =>
      match next gen g with
      | (Ok x, gen', g') =>
          match pulls k' gen' g' with
          | (Ok xs, gen'', g'') => (Ok (x :: xs), gen'', g'')
          | (Raise e, gen'', g'') => (Raise e, gen'', g'')
          end
      | (Raise e, gen', g') => (Raise e, gen', g')
      end
  end.

(** [k] passes of the loop body in a row, each on the result of the one
    before. *)
Fixpoint steps (k : nat) (prev_step : list Z) : M G (list Z) :=
  match k with
  | O => ret prev_step
  | S k' => next_step <~ simulate_step prev_step ;; steps k' next_step
  end.

(** [k] calls of [random.randint(0, NUMPLAYERS - 1)] in a row. *)
Fixpoint randints (k : nat) : M G (list Z) :=
  match k with
  | O => ret []
  | S k' =>
      r <~ randint 0 (NUMPLAYERS cfg - 1) ;;
      rs <~ randints k' ;;
      ret (r :: rs)
  end.

End Simulate.

(** ** The algorithm as the description words it

    Steps 1 to 4 of the description: from [prev] of length [n], first
    [next[i] = max(0, prev[i] - 1)] for every [i]; then, for every [i] in
    increasing order with [prev[i] > 0], draw an index [r] of [[0, n)] and
    add one to [next[r]], whether or not [r] is [i]. *)

Section Described.
Context {G : Type} `{!RandomSource G}.

(** [next_index(n)]: an index of [[0, n)] from the source. *)
Definition described_next_index (n : Z) : M G Z := randint 0 (n - 1).

Definition described_decrement (prev : list Z) : list Z :=
  (λ p, Z.max 0 (p - 1)) <$> prev.

Fixpoint described_hand_out (n : Z) (prev next : list Z) : M G (list Z) :=
  match prev with
  | [] => ret next
  | p :: rest =>
      if bool_decide (0 < p) then
        r <~ described_next_index n ;;
        described_hand_out n rest (alter (λ v, v + 1) (Z.to_nat r) next)
      else described_hand_out n rest next
  end.

Definition described_advance (prev : list Z) : M G (list Z) :=
  described_hand_out (Z.of_nat (length prev)) prev (described_decrement prev).

End Described.

(** ** Notions the properties are stated with *)

(** Sum of a distribution. *)
Definition total (l : list Z) : Z := foldr Z.add 0 l.

(** A list of the length the generator works on. *)
Definition sized (cfg : config) (l : list Z) : Prop :=
  length l = Z.to_nat (NUMPLAYERS cfg).

(** The list the generator would start its next pass from. *)
Definition pending (cfg : config) (gen : generator) : option (list Z) :=
  match gen with
  | Created => Some (simulate_init cfg)
  | Suspended next_step => Some next_step
  | Closed => None
  end.

(** One more unit at position [r]. *)
Definition give (next_step : list Z) (r : Z) : list Z :=
  alter Z.succ (Z.to_nat r) next_step.

(** The units of the draws [rs], handed out one after the other. *)
Definition gives (rs : list Z) (next_step : list Z) : list Z :=
  foldl give next_step rs.

(** The players who give: those whose wealth is not zero. *)
Definition givers (prev_step : list Z) : list Z :=
  filter (λ wealth, wealth ≠ 0) prev_step.

(** How many draws of [rs] fell on position [j]. *)
Definition received (j : nat) (rs : list Z) : Z :=
  Z.of_nat (length (filter (λ r, Z.to_nat r = j) rs)).


(** ** Two concrete random sources *)

(** A source that replays a tape of raw numbers, each reduced into the
    range asked for; when the tape is over it returns the lower end. *)
Definition tape_randint (a b : Z) : M (list Z) Z :=
  λ t, if bool_decide (b < a) then (Raise ValueError, t)
       else match t with
            | [] => (Ok a, [])
            | x :: t' => (Ok (a + x `mod` (b - a + 1)), t')
            end.

Lemma tape_randint_range (a b : Z) (t : list Z) :
  a ≤ b → ∃ r, (tape_randint a b t).1 = Ok r ∧ a ≤ r ≤ b.
Proof.
  intros Hab. unfold tape_randint.
  rewrite bool_decide_eq_false_2 by lia.
  destruct t as [|x t']; simpl.
  - exists a. split; [done | lia].
  - exists (a + x `mod` (b - a + 1)). split; [done |].
    pose proof (Z.mod_pos_bound x (b - a + 1)). lia.
Qed.

Lemma tape_randint_empty (a b : Z) (t : list Z) :
  b < a → tape_randint a b t = (Raise ValueError, t).
Proof. intros Hab. unfold tape_randint. by rewrite bool_decide_eq_true_2. Qed.

Definition tape_source : RandomSource (list Z) :=
  {| randint := tape_randint;
     randint_range := tape_randint_range;
     randint_empty := tape_randint_empty |}.

(** A source with no state that always returns the lower end. *)
Definition low_randint (a b : Z) : M unit Z :=
  λ u, if bool_decide (b < a) then (Raise ValueError, u) else (Ok a, u).

Lemma low_randint_range (a b : Z) (u : unit) :
  a ≤ b → ∃ r, (low_randint a b u).1 = Ok r ∧ a ≤ r ≤ b.
Proof.
  intros Hab. unfold low_randint. rewrite bool_decide_eq_false_2 by lia.
  exists a. split; [done | lia].
Qed.

Lemma low_randint_empty (a b : Z) (u : unit) :
  b < a → low_randint a b u = (Raise ValueError, u).
Proof. intros Hab. unfold low_randint. by rewrite bool_decide_eq_true_2. Qed.

Definition low_source : RandomSource unit :=
  {| randint := low_randint;
     randint_range := low_randint_range;
     randint_empty := low_randint_empty |}.

(** ** Runs on small inputs *)

(** Two players with one unit each and a source that always says 0: both
    give to player 0. *)
Example step_two_players_low :
  @simulate_step unit low_source (Config 1 2) [1; 1] () = (Ok [2; 0], ()).
Proof. reflexivity. Qed.

(** Nobody has anything: nothing is drawn and nothing moves. *)
Example step_all_zero :
  @simulate_step _ tape_source (Config 0 3) [0; 0; 0] [7; 8; 9]
  = (Ok [0; 0; 0], [7; 8; 9]).
Proof. reflexivity. Qed.

(** Three pulls on a tape, two players with two units each. *)
Example pulls_on_tape :
  @pulls _ tape_source (Config 2 2) 3 simulate [0; 0; 1; 0; 1; 1]
  = (Ok [[3; 1]; [3; 1]; [2; 2]], Suspended [2; 2], []).
Proof. reflexivity. Qed.

(** With a generator closed by an exception, [next] raises [StopIteration]. *)
Example next_closed :
  @next _ tape_source notebook Closed [] = (Raise StopIteration, Closed, []).
Proof. reflexivity. Qed.

(** A pass on a tape: two givers, two numbers taken off the tape. *)
Example step_takes_two_draws :
  @simulate_step _ tape_source (Config 2 3) [3; 0; 1] [5; 7; 9]
  = (Ok [2; 1; 1], [9]).
Proof. reflexivity. Qed.

(** A subscript below zero counts from the end, one past the end raises. *)
Example iadd_item_from_the_end : iadd_item [1; 2; 3] (-1) 1 = Ok [1; 2; 4].
Proof. reflexivity. Qed.

Example iadd_item_past_the_end : iadd_item [1; 2; 3] 3 1 = Raise IndexError.
Proof. reflexivity. Qed.

(** Outside what the generator itself builds, a pass can raise: a list
    shorter than [NUMPLAYERS], or a giver with no player to draw. *)
Example step_on_short_list :
  @simulate_step _ tape_source (Config 1 5) [1] [3] = (Raise IndexError, []).
Proof. reflexivity. Qed.

Example step_with_no_player :
  @simulate_step _ tape_source (Config 1 0) [1] [3] = (Raise ValueError, [3]).
Proof. reflexivity. Qed.

(** A negative wealth counts as true: the player gives, and the sum moves. *)
Example step_on_negative_wealth :
  @simulate_step _ tape_source (Config 1 1) [-3] [] = (Ok [1], []).
Proof. reflexivity. Qed.

(** * Lemmas *)

(** ** Lists *)

Section ListFacts.
Implicit Types (l : list Z) (r w : Z) (n : nat).

Lemma truthy_true w : truthy w = true ↔ w ≠ 0.
Proof. unfold truthy. destruct (Z.eqb_spec w 0); simpl; split; intros; done || lia. Qed.

Lemma truthy_false w : truthy w = false ↔ w = 0.
Proof. unfold truthy. destruct (Z.eqb_spec w 0); simpl; split; intros; done || lia. Qed.

Lemma insert_alter_succ l n v :
  l !! n = Some v → <[n := v + 1]> l = alter Z.succ n l.
Proof.
  revert n. induction l as [|x l IH]; intros [|n] Hn; simpl in *; try done.
  - by inversion Hn.
  - f_equal. by apply IH.
Qed.

Lemma iadd_item_give l r :
  0 ≤ r < Z.of_nat (length l) → iadd_item l r 1 = Ok (give l r).
Proof.
  intros Hr. unfold iadd_item, getitem, setitem, subscript, give.
  rewrite bool_decide_eq_true_2 by lia.
  destruct (lookup_lt_is_Some_2 l (Z.to_nat r)) as [v Hv]; [lia |].
  rewrite Hv. f_equal. by apply insert_alter_succ.
Qed.

Lemma iadd_item_out_of_range l r :
  Z.of_nat (length l) ≤ r → iadd_item l r 1 = Raise IndexError.
Proof.
  intros Hr. unfold iadd_item, getitem, subscript.
  rewrite bool_decide_eq_false_2 by lia.
  by rewrite bool_decide_eq_false_2 by lia.
Qed.

Lemma give_length l r : length (give l r) = length l.
Proof. apply length_alter. Qed.

Lemma gives_length rs l : length (gives rs l) = length l.
Proof.
  revert l. induction rs as [|r rs IH]; intros l; simpl; [done |].
  unfold gives in *. simpl. rewrite IH. apply give_length.
Qed.

Lemma total_alter_succ l n :
  (n < length l)%nat → total (alter Z.succ n l) = total l + 1.
Proof.
  revert n. induction l as [|x l IH]; intros [|n] Hn; simpl in *; try lia.
  change (list_alter Z.succ n l) with (alter Z.succ n l).
  rewrite IH by lia. lia.
Qed.

Lemma total_give l r :
  0 ≤ r < Z.of_nat (length l) → total (give l r) = total l + 1.
Proof. intros Hr. apply total_alter_succ. lia. Qed.

Lemma total_gives rs l :
  Forall (λ r, 0 ≤ r < Z.of_nat (length l)) rs →
  total (gives rs l) = total l + Z.of_nat (length rs).
Proof.
  revert l. induction rs as [|r rs IH]; intros l Hrs.
  - simpl. lia.
  - inversion Hrs as [|? ? Hr Hrs']; subst.
    change (gives (r :: rs) l) with (gives rs (give l r)).
    rewrite IH.
    + rewrite total_give by done. simpl length. lia.
    + by rewrite give_length.
Qed.

Lemma lookup_give l r j :
  give l r !! j = (λ v, v + (if decide (Z.to_nat r = j) then 1 else 0)) <$> l !! j.
Proof.
  unfold give. destruct (decide (Z.to_nat r = j)) as [<-|Hne].
  - rewrite list_lookup_alter_eq. destruct (l !! Z.to_nat r); simpl; [f_equal; lia | done].
  - rewrite list_lookup_alter_ne by done.
    destruct (l !! j); simpl; [f_equal; lia | done].
Qed.

Lemma lookup_gives rs l j :
  gives rs l !! j = (λ v, v + received j rs) <$> l !! j.
Proof.
  revert l. induction rs as [|r rs IH]; intros l.
  - unfold received. simpl. destruct (l !! j); simpl; [f_equal; lia | done].
  - change (gives (r :: rs) l) with (gives rs (give l r)).
    rewrite IH, lookup_give. destruct (l !! j) as [v|]; simpl; [|done].
    f_equal. unfold received. rewrite filter_cons.
    destruct (decide (Z.to_nat r = j)); simpl length; lia.
Qed.

Lemma received_nonneg j rs : 0 ≤ received j rs.
Proof. unfold received. lia. Qed.

Lemma total_decrement (prev : list Z) :
  Forall (λ w, 0 ≤ w) prev →
  total ((λ w, Z.max 0 (w - 1)) <$> prev) + Z.of_nat (length (givers prev))
  = total prev.
Proof.
  unfold givers.
  induction 1 as [|w prev Hw _ IH]; [done |].
  rewrite fmap_cons, filter_cons. simpl total.
  destruct (decide (w ≠ 0)); simpl length; lia.
Qed.

End ListFacts.

(** ** What one pass of the loop does *)

Section StepFacts.
Context {G : Type} `{!RandomSource G}.
Variable cfg : config.

Local Abbreviation N := (NUMPLAYERS cfg).

Lemma randint_ok (a b : Z) (g : G) :
  a ≤ b → ∃ r g', randint a b g = (Ok r, g') ∧ a ≤ r ≤ b.
Proof.
  intros Hab. destruct (randint_range a b g Hab) as (r & Hr & Hin).
  destruct (randint a b g) as [res g'] eqn:E. simpl in Hr. subst res.
  by exists r, g'.
Qed.

Lemma randints_ok (k : nat) (g : G) :
  1 ≤ N →
  ∃ rs g', randints cfg k g = (Ok rs, g') ∧ length rs = k
           ∧ Forall (λ r, 0 ≤ r < N) rs.
Proof.
  intros HN. revert g. induction k as [|k IH]; intros g.
  - exists [], g. by repeat split.
  - destruct (randint_ok 0 (N - 1) g) as (r & g1 & Hr & Hin); [lia |].
    destruct (IH g1) as (rs & g' & Hrs & Hlen & Hall).
    exists (r :: rs), g'. simpl. unfold bind at 1. rewrite Hr.
    unfold bind at 1. rewrite Hrs. repeat split.
    + simpl. by rewrite Hlen.
    + constructor; [lia | done].
Qed.

(** The loop draws once for each giver, in order, and hands the units out:
    no draw fails and no subscript is out of range. *)
Lemma simulate_hand_out_gives (prev_step next_step : list Z) (g : G) :
  sized cfg next_step → (length prev_step ≤ Z.to_nat N)%nat →
  ∃ rs g', randints cfg (length (givers prev_step)) g = (Ok rs, g')
           ∧ simulate_hand_out cfg prev_step next_step g = (Ok (gives rs next_step), g')
           ∧ length rs = length (givers prev_step)
           ∧ Forall (λ r, 0 ≤ r < N) rs.
Proof.
  unfold sized, givers. revert next_step g.
  induction prev_step as [|wealth rest IH]; intros next_step g Hnext Hprev.
  - exists [], g. by repeat split.
  - simpl in Hprev. rewrite filter_cons. simpl simulate_hand_out.
    destruct (truthy wealth) eqn:Hw.
    + apply truthy_true in Hw. rewrite decide_True by done.
      destruct (randint_ok 0 (N - 1) g) as (r & g1 & Hr & Hin); [lia |].
      destruct (IH (give next_step r) g1) as (rs & g' & Hrs & Hrun & Hlen & Hall).
      { by rewrite give_length. }
      { lia. }
      exists (r :: rs), g'. repeat split.
      * simpl. unfold bind at 1. rewrite Hr. unfold bind at 1. by rewrite Hrs.
      * unfold bind at 1. rewrite Hr. unfold bind at 1, lift.
        rewrite iadd_item_give by lia. exact Hrun.
      * simpl. by rewrite Hlen.
      * constructor; [lia | done].
    + apply truthy_false in Hw. rewrite decide_False by (intros ?; done).
      apply IH; [done | lia].
Qed.

Lemma simulate_decrement_length (prev_step : list Z) :
  length (simulate_decrement prev_step) = length prev_step.
Proof. apply length_fmap. Qed.

Lemma simulate_step_gives (prev_step : list Z) (g : G) :
  sized cfg prev_step →
  ∃ rs g', randints cfg (length (givers prev_step)) g = (Ok rs, g')
           ∧ simulate_step cfg prev_step g
             = (Ok (gives rs (simulate_decrement prev_step)), g')
           ∧ length rs = length (givers prev_step)
           ∧ Forall (λ r, 0 ≤ r < N) rs.
Proof.
  intros Hsized. apply simulate_hand_out_gives.
  - unfold sized. by rewrite simulate_decrement_length.
  - unfold sized in Hsized. lia.
Qed.

Lemma simulate_step_sized (prev_step next_step : list Z) (g g' : G) :
  sized cfg prev_step → simulate_step cfg prev_step g = (Ok next_step, g') →
  sized cfg next_step.
Proof.
  intros Hsized Hstep.
  destruct (simulate_step_gives prev_step g Hsized) as (rs & g1 & _ & Hrun & _).
  rewrite Hrun in Hstep. inversion Hstep; subst.
  unfold sized. by rewrite gives_length, simulate_decrement_length.
Qed.

Lemma simulate_init_sized : sized cfg (simulate_init cfg).
Proof. unfold sized, simulate_init, list_mul. apply length_replicate. Qed.

(** Each entry after a pass: the old one less a unit, not below zero, plus
    what the draws gave it. *)
Lemma simulate_step_lookup (prev_step : list Z) (g : G) :
  sized cfg prev_step →
  ∃ rs next_step g', simulate_step cfg prev_step g = (Ok next_step, g')
    ∧ length next_step = length prev_step
    ∧ ∀ j, next_step !! j = (λ w, Z.max 0 (w - 1) + received j rs) <$> prev_step !! j.
Proof.
  intros Hsized.
  destruct (simulate_step_gives prev_step g Hsized) as (rs & g' & _ & Hrun & _).
  exists rs, (gives rs (simulate_decrement prev_step)), g'. repeat split; [done | |].
  - by rewrite gives_length, simulate_decrement_length.
  - intros j. rewrite lookup_gives. unfold simulate_decrement.
    rewrite list_lookup_fmap. by destruct (prev_step !! j).
Qed.

(** *** Several passes *)

Lemma steps_ok (k : nat) (prev_step : list Z) (g : G) :
  sized cfg prev_step →
  ∃ x g', steps cfg k prev_step g = (Ok x, g') ∧ sized cfg x.
Proof.
  revert prev_step g. induction k as [|k IH]; intros prev_step g Hsized.
  - by exists prev_step, g.
  - destruct (simulate_step_gives prev_step g Hsized) as (rs & g1 & _ & Hrun & _).
    destruct (IH (gives rs (simulate_decrement prev_step)) g1) as (x & g' & Hx & Hs).
    { unfold sized. by rewrite gives_length, simulate_decrement_length. }
    exists x, g'. split; [|done]. simpl. unfold bind. by rewrite Hrun.
Qed.

(** A property that a pass keeps holds after any number of passes. *)
Lemma steps_invariant (P : list Z → Prop) :
  (∀ prev_step g next_step g',
      sized cfg prev_step → P prev_step →
      simulate_step cfg prev_step g = (Ok next_step, g') → P next_step) →
  ∀ k prev_step g x g',
    sized cfg prev_step → P prev_step →
    steps cfg k prev_step g = (Ok x, g') → P x.
Proof.
  intros Hkeep. induction k as [|k IH]; intros prev_step g x g' Hsized HP Hrun.
  - inversion Hrun; by subst.
  - simpl in Hrun. unfold bind in Hrun.
    destruct (simulate_step cfg prev_step g) as [[next_step|e] g1] eqn:Hstep; [|done].
    eapply IH; [| |exact Hrun].
    + by eapply simulate_step_sized.
    + by eapply Hkeep.
Qed.

(** *** The generator *)

(** Asking [k] times gives the results of 1, 2, ..., [k] passes, and leaves
    the generator on the last one and the source where [k] passes leave it. *)
Lemma pulls_steps (k : nat) (gen : generator) (prev_step : list Z) (g : G) :
  pending cfg gen = Some prev_step → sized cfg prev_step →
  ∃ xs gen' g',
    pulls cfg k gen g = (Ok xs, gen', g')
    ∧ length xs = k
    ∧ (∀ j x, xs !! j = Some x → ∃ gj, steps cfg (S j) prev_step g = (Ok x, gj))
    ∧ (∃ x, steps cfg k prev_step g = (Ok x, g') ∧ pending cfg gen' = Some x).
Proof.
  revert gen prev_step g. induction k as [|k IH]; intros gen prev_step g Hgen Hsized.
  - exists [], gen, g. repeat split; try done. by exists prev_step.
  - destruct (simulate_step_gives prev_step g Hsized) as (rs & g1 & _ & Hrun & _).
    set (next_step := gives rs (simulate_decrement prev_step)) in *.
    assert (Hnext : next cfg gen g = (Ok next_step, Suspended next_step, g1)).
    { destruct gen; simpl in Hgen; try done; inversion Hgen; subst;
        simpl; unfold run_to_yield; by rewrite Hrun. }
    destruct (IH (Suspended next_step) next_step g1) as
      (xs & gen' & g' & Hpulls & Hlen & Hnth & (x & Hx & Hpend)); [done | |].
    { eapply simulate_step_sized; [exact Hsized | exact Hrun]. }
    exists (next_step :: xs), gen', g'. repeat split.
    + simpl. by rewrite Hnext, Hpulls.
    + simpl. by rewrite Hlen.
    + intros [|j] y Hy; simpl in Hy.
      * inversion Hy; subst. exists g1. simpl. unfold bind. by rewrite Hrun.
      * destruct (Hnth j y Hy) as (gj & Hgj). exists gj.
        change (steps cfg (S (S j)) prev_step g)
          with (bind (simulate_step cfg prev_step) (steps cfg (S j)) g).
        unfold bind. by rewrite Hrun.
    + exists x. split; [|done]. simpl. unfold bind. by rewrite Hrun.
Qed.

End StepFacts.

(** ** Consequences used by several properties *)

Section Invariants.
Context {G : Type} `{!RandomSource G}.
Variable cfg : config.

Local Abbreviation N := (NUMPLAYERS cfg).

Lemma total_replicate (n : nat) (x : Z) : total (replicate n x) = Z.of_nat n * x.
Proof. induction n as [|n IH]; [done |]. simpl replicate. simpl total. rewrite IH. lia. Qed.

Lemma givers_positive (prev_step : list Z) :
  Forall (λ w, 0 ≤ w) prev_step →
  givers prev_step = filter (λ w, 0 < w) prev_step.
Proof.
  unfold givers. induction 1 as [|w prev_step Hw _ IH]; [done |].
  rewrite !filter_cons, IH.
  destruct (decide (w ≠ 0)), (decide (0 < w)); done || lia.
Qed.

Lemma draws_in_range (l : list Z) (rs : list Z) :
  length l = Z.to_nat N →
  Forall (λ r, 0 ≤ r < N) rs → Forall (λ r, 0 ≤ r < Z.of_nat (length l)) rs.
Proof. intros Hl Hrs. eapply Forall_impl; [exact Hrs |]. intros r Hr. simpl in Hr. lia. Qed.

(** A pass keeps the sum of a distribution without negative entries. *)
Lemma simulate_step_total (prev_step : list Z) (g : G) :
  sized cfg prev_step → Forall (λ w, 0 ≤ w) prev_step →
  ∃ next_step g', simulate_step cfg prev_step g = (Ok next_step, g')
                  ∧ total next_step = total prev_step.
Proof.
  intros Hsized Hpos.
  destruct (simulate_step_gives cfg prev_step g Hsized)
    as (rs & g' & _ & Hrun & Hlen & Hall).
  eexists _, g'. split; [exact Hrun |].
  rewrite total_gives.
  - rewrite Hlen. by apply total_decrement.
  - apply draws_in_range; [|done]. by rewrite simulate_decrement_length.
Qed.

(** A pass leaves no negative entry, whatever it started from. *)
Lemma simulate_step_nonneg (prev_step : list Z) (g : G) :
  sized cfg prev_step →
  ∃ next_step g', simulate_step cfg prev_step g = (Ok next_step, g')
                  ∧ Forall (λ w, 0 ≤ w) next_step.
Proof.
  intros Hsized.
  destruct (simulate_step_lookup cfg prev_step g Hsized)
    as (rs & next_step & g' & Hrun & _ & Hnth).
  exists next_step, g'. split; [done |].
  apply Forall_lookup. intros j x Hx. rewrite Hnth in Hx.
  destruct (prev_step !! j) as [w|]; simpl in Hx; [|done].
  inversion Hx; subst. pose proof (received_nonneg j rs). lia.
Qed.

(** What a pass keeps, every snapshot has. *)
Lemma pulls_Forall (P : list Z → Prop) (k : nat) (g : G) :
  (∀ prev_step g next_step g',
      sized cfg prev_step → P prev_step →
      simulate_step cfg prev_step g = (Ok next_step, g') → P next_step) →
  P (simulate_init cfg) →
  ∃ xs gen' g', pulls cfg k simulate g = (Ok xs, gen', g')
                ∧ length xs = k ∧ Forall P xs.
Proof.
  intros Hkeep Hinit.
  destruct (pulls_steps cfg k simulate (simulate_init cfg) g)
    as (xs & gen' & g' & Hpulls & Hlen & Hnth & _);
    [done | apply simulate_init_sized |].
  exists xs, gen', g'. repeat split; [done | done |].
  apply Forall_lookup. intros j x Hx.
  destruct (Hnth j x Hx) as (gj & Hgj).
  eapply (steps_invariant cfg P Hkeep); [apply simulate_init_sized | exact Hinit | exact Hgj].
Qed.

(** Asking [k + m] times is asking [k] times and then [m] times more. *)
Lemma pulls_add (k m : nat) (gen : generator) (g : G) :
  pulls cfg (k + m) gen g
  = match pulls cfg k gen g with
    | (Ok xs, gen', g') =>
        match pulls cfg m gen' g' with
        | (Ok ys, gen'', g'') => (Ok (xs ++ ys), gen'', g'')
        | (Raise e, gen'', g'') => (Raise e, gen'', g'')
        end
    | (Raise e, gen', g') => (Raise e, gen', g')
    end.
Proof.
  revert gen g. induction k as [|k IH]; intros gen g.
  - simpl. by destruct (pulls cfg m gen g) as [[[ys|e] gen''] g''].
  - simpl. destruct (next cfg gen g) as [[[x|e] gen1] g1]; [|done].
    rewrite IH. destruct (pulls cfg k gen1 g1) as [[[xs|e] gen'] g']; [|done].
    by destruct (pulls cfg m gen' g') as [[[ys|e] gen''] g''].
Qed.

End Invariants.

(** ** The loop against the described algorithm *)

Section Refinement.
Context {G : Type} `{!RandomSource G}.
Variable cfg : config.

Lemma alter_succ_add_one (l : list Z) (n : nat) :
  alter (λ v, v + 1) n l = alter Z.succ n l.
Proof. apply list_alter_ext; [|done]. intros; lia. Qed.

Lemma simulate_hand_out_described (prev_step next_step : list Z) (g : G) :
  sized cfg next_step → (length prev_step ≤ Z.to_nat (NUMPLAYERS cfg))%nat →
  Forall (λ w, 0 ≤ w) prev_step →
  simulate_hand_out cfg prev_step next_step g
  = described_hand_out (NUMPLAYERS cfg) prev_step next_step g.
Proof.
  unfold sized. intros Hnext Hlen Hpos. revert next_step g Hnext Hlen.
  induction Hpos as [|wealth rest Hw _ IH]; intros next_step g Hnext Hlen; [done |].
  simpl in Hlen. simpl.
  destruct (truthy wealth) eqn:Ht.
  - apply truthy_true in Ht. rewrite bool_decide_eq_true_2 by lia.
    unfold described_next_index, bind at 1 3.
    destruct (randint_ok 0 (NUMPLAYERS cfg - 1) g) as (r & g1 & Hr & Hin); [lia |].
    rewrite Hr. unfold bind, lift. rewrite iadd_item_give by lia.
    rewrite alter_succ_add_one. apply IH; [|lia].
    by rewrite length_alter.
  - apply truthy_false in Ht. rewrite bool_decide_eq_false_2 by lia.
    apply IH; [done | lia].
Qed.

End Refinement.

(** ** Fewer than one player *)

Section NoPlayers.
Context {G : Type} `{!RandomSource G}.
Variable cfg : config.

Lemma simulate_init_empty : NUMPLAYERS cfg < 1 → simulate_init cfg = [].
Proof.
  intros HN. unfold simulate_init, list_mul.
  by replace (Z.to_nat (NUMPLAYERS cfg)) with O by lia.
Qed.

(** On the empty list a pass draws nothing and yields the empty list. *)
Lemma pulls_empty (k : nat) (gen : generator) (g : G) :
  pending cfg gen = Some [] →
  ∃ gen', pulls cfg k gen g = (Ok (replicate k []), gen', g)
          ∧ pending cfg gen' = Some [].
Proof.
  revert gen. induction k as [|k IH]; intros gen Hgen.
  - by exists gen.
  - assert (Hnext : next cfg gen g = (Ok [], Suspended [], g)).
    { destruct gen; simpl in Hgen; try done; inversion Hgen as [Hinit];
        simpl; by rewrite ?Hinit. }
    destruct (IH (Suspended [])) as (gen' & Hpulls & Hpend); [done |].
    exists gen'. split; [|done]. simpl. by rewrite Hnext, Hpulls.
Qed.

End NoPlayers.

(** ** Two sources that answer alike *)

Section Determinism.
Context {G1 G2 : Type} `{!RandomSource G1} `{!RandomSource G2}.
Variable R : G1 → G2 → Prop.
Hypothesis R_randint : ∀ a b g1 g2,
  R g1 g2 →
  (randint a b g1).1 = (randint a b g2).1 ∧ R (randint a b g1).2 (randint a b g2).2.
Variable cfg : config.




End Determinism.

(** * The stated properties *)

(** C1 (conservation of total wealth).  A pass of the loop on a distribution
    with no negative entry yields a distribution with the same sum; hence,
    when the initial wealth is not negative, every snapshot the generator
    yields, after any number of passes, has the sum of the initial
    distribution. *)
Theorem conservation_of_total_wealth {G : Type} `{!RandomSource G} (cfg : config) :
  (∀ prev_step g,
      sized cfg prev_step → Forall (λ w, 0 ≤ w) prev_step →
      ∃ next_step g', simulate_step cfg prev_step g = (Ok next_step, g')
                      ∧ total next_step = total prev_step)
  ∧ (0 ≤ INITWEALTH cfg →
     ∀ k g, ∃ xs gen' g',
       pulls cfg k simulate g = (Ok xs, gen', g') ∧ length xs = k
       ∧ Forall (λ x, total x = total (simulate_init cfg)) xs).
Proof.
  split; [apply simulate_step_total |].
  intros HW k g.
  destruct (pulls_Forall cfg
              (λ x, Forall (λ w, 0 ≤ w) x ∧ total x = total (simulate_init cfg)) k g)
    as (xs & gen' & g' & Hpulls & Hlen & Hall).
  - intros prev_step g0 next_step g0' Hsized [Hpos Hsum] Hstep. split.
    + destruct (simulate_step_nonneg cfg prev_step g0 Hsized) as (y & g1 & Hy & Hnn).
      rewrite Hy in Hstep. by inversion Hstep; subst.
    + destruct (simulate_step_total cfg prev_step g0 Hsized Hpos) as (y & g1 & Hy & Ht).
      rewrite Hy in Hstep. inversion Hstep; subst. by rewrite Ht.
  - split; [|done]. unfold simulate_init, list_mul. by apply Forall_replicate.
  - exists xs, gen', g'. repeat split; [done | done |].
    eapply Forall_impl; [exact Hall |]. by intros x [_ Hx].
Qed.

Lemma conservation_of_total_wealth_witness :
  (sized (Config 2 3) [3; 0; 1] ∧ Forall (λ w, 0 ≤ w) [3; 0; 1]
   ∧ ∃ next_step g',
       @simulate_step _ tape_source (Config 2 3) [3; 0; 1] [5; 7] = (Ok next_step, g')
       ∧ total next_step = total [3; 0; 1])
  ∧ (0 ≤ INITWEALTH (Config 2 3)
     ∧ ∃ xs gen' g',
         @pulls _ tape_source (Config 2 3) 4 simulate [1; 2; 0; 1; 1] = (Ok xs, gen', g')
         ∧ length xs = 4%nat
         ∧ Forall (λ x, total x = total (simulate_init (Config 2 3))) xs).
Proof.
  assert (Hs : sized (Config 2 3) [3; 0; 1]) by reflexivity.
  assert (Hp : Forall (λ w, 0 ≤ w) [3; 0; 1]) by (repeat constructor; lia).
  assert (HW : 0 ≤ INITWEALTH (Config 2 3)) by (simpl; lia).
  pose proof (@conservation_of_total_wealth _ tape_source (Config 2 3)) as [Hstep Hrun].
  split.
  - split; [exact Hs |]. split; [exact Hp |]. exact (Hstep [3; 0; 1] [5; 7] Hs Hp).
  - split; [exact HW |]. exact (Hrun HW 4%nat [1; 2; 0; 1; 1]).
Defined.

(** C2 (non-negativity).  A pass of the loop yields a distribution with no
    negative entry (whatever the entries it started from); hence, when the
    initial wealth is not negative, the initial distribution and every
    snapshot the generator yields have every entry at least 0. *)
Theorem non_negativity {G : Type} `{!RandomSource G} (cfg : config) :
  (∀ prev_step g,
      sized cfg prev_step →
      ∃ next_step g', simulate_step cfg prev_step g = (Ok next_step, g')
                      ∧ ∀ i w, next_step !! i = Some w → 0 ≤ w)
  ∧ (0 ≤ INITWEALTH cfg →
     (∀ i w, simulate_init cfg !! i = Some w → 0 ≤ w)
     ∧ ∀ k g, ∃ xs gen' g',
         pulls cfg k simulate g = (Ok xs, gen', g') ∧ length xs = k
         ∧ ∀ j x i w, xs !! j = Some x → x !! i = Some w → 0 ≤ w).
Proof.
  split.
  - intros prev_step g Hsized.
    destruct (simulate_step_nonneg cfg prev_step g Hsized) as (y & g' & Hy & Hnn).
    exists y, g'. split; [done |]. by apply Forall_lookup.
  - intros HW.
    assert (Hinit : Forall (λ w, 0 ≤ w) (simulate_init cfg)).
    { unfold simulate_init, list_mul. by apply Forall_replicate. }
    split; [by apply Forall_lookup |].
    intros k g.
    destruct (pulls_Forall cfg (Forall (λ w, 0 ≤ w)) k g)
      as (xs & gen' & g' & Hpulls & Hlen & Hall); [|done|].
    + intros prev_step g0 next_step g0' Hsized _ Hstep.
      destruct (simulate_step_nonneg cfg prev_step g0 Hsized) as (y & g1 & Hy & Hnn).
      rewrite Hy in Hstep. by inversion Hstep; subst.
    + exists xs, gen', g'. repeat split; [done | done |].
      intros j x i w Hx Hw.
      pose proof (proj1 (Forall_lookup _ _) Hall j x Hx) as Hnn.
      exact (proj1 (Forall_lookup _ _) Hnn i w Hw).
Qed.

Lemma non_negativity_witness :
  (sized (Config 2 3) [-4; 0; 1]
   ∧ ∃ next_step g',
       @simulate_step _ tape_source (Config 2 3) [-4; 0; 1] [5; 7] = (Ok next_step, g')
       ∧ ∀ i w, next_step !! i = Some w → 0 ≤ w)
  ∧ (0 ≤ INITWEALTH (Config 2 3)
     ∧ (∀ i w, simulate_init (Config 2 3) !! i = Some w → 0 ≤ w)
     ∧ ∀ k g, ∃ xs gen' g',
         @pulls _ tape_source (Config 2 3) k simulate g = (Ok xs, gen', g')
         ∧ length xs = k
         ∧ ∀ j x i w, xs !! j = Some x → x !! i = Some w → 0 ≤ w).
Proof.
  assert (Hs : sized (Config 2 3) [-4; 0; 1]) by reflexivity.
  assert (HW : 0 ≤ INITWEALTH (Config 2 3)) by (simpl; lia).
  pose proof (@non_negativity _ tape_source (Config 2 3)) as [Hstep Hrun].
  split.
  - split; [exact Hs |]. exact (Hstep [-4; 0; 1] [5; 7] Hs).
  - split; [exact HW |]. exact (Hrun HW).
Defined.

(** C3 (the pass is the described algorithm).  On a distribution of
    [NUMPLAYERS] entries, none negative, a pass of the loop returns what
    the described algorithm returns and leaves the source where it leaves
    it: decrement floored at zero first, then one draw of [[0, N)] and one
    increment for each index of positive previous wealth, in increasing
    order, the giver's own index like any other.  (That the draw is uniform
    is the contract of [random.randint], which the interface does not
    carry.) *)
Theorem step_is_described_algorithm {G : Type} `{!RandomSource G}
    (cfg : config) (prev_step : list Z) (g : G) :
  sized cfg prev_step → Forall (λ w, 0 ≤ w) prev_step →
  simulate_step cfg prev_step g = described_advance prev_step g
  ∧ ∃ next_step g', simulate_step cfg prev_step g = (Ok next_step, g').
Proof.
  intros Hsized Hpos. split.
  - unfold simulate_step, described_advance.
    destruct prev_step as [|w rest] eqn:E; [done |]. rewrite <- E in *.
    assert (HN : Z.of_nat (length prev_step) = NUMPLAYERS cfg).
    { unfold sized in Hsized. rewrite Hsized. apply Z2Nat.id.
      destruct (NUMPLAYERS cfg); try lia; subst; simpl in Hsized; lia. }
    rewrite HN. apply simulate_hand_out_described; [| |done].
    + unfold sized. by rewrite simulate_decrement_length.
    + unfold sized in Hsized. lia.
  - destruct (simulate_step_gives cfg prev_step g Hsized) as (rs & g' & _ & Hrun & _).
    by eexists _, g'.
Qed.

Lemma step_is_described_algorithm_witness :
  sized (Config 2 3) [3; 0; 1] ∧ Forall (λ w, 0 ≤ w) [3; 0; 1]
  ∧ @simulate_step _ tape_source (Config 2 3) [3; 0; 1] [5; 7]
    = @described_advance _ tape_source [3; 0; 1] [5; 7]
  ∧ ∃ next_step g',
      @simulate_step _ tape_source (Config 2 3) [3; 0; 1] [5; 7] = (Ok next_step, g').
Proof.
  assert (Hs : sized (Config 2 3) [3; 0; 1]) by reflexivity.
  assert (Hp : Forall (λ w, 0 ≤ w) [3; 0; 1]) by (repeat constructor; lia).
  split; [exact Hs |]. split; [exact Hp |].
  exact (@step_is_described_algorithm _ tape_source (Config 2 3) [3; 0; 1] [5; 7] Hs Hp).
Defined.

(** C4 (initialization).  For a number of players that is not negative, the
    list the generator starts from has that many entries, each of them the
    initial wealth, and so sums to their product; in the notebook, 100
    entries of 50. *)
Theorem initialization_all_equal (cfg : config) :
  0 ≤ NUMPLAYERS cfg →
  Z.of_nat (length (simulate_init cfg)) = NUMPLAYERS cfg
  ∧ (∀ i w, simulate_init cfg !! i = Some w → w = INITWEALTH cfg)
  ∧ (∀ i, 0 ≤ i < NUMPLAYERS cfg →
          simulate_init cfg !! Z.to_nat i = Some (INITWEALTH cfg))
  ∧ total (simulate_init cfg) = NUMPLAYERS cfg * INITWEALTH cfg.
Proof.
  intros HN. unfold simulate_init, list_mul. repeat split.
  - rewrite length_replicate. lia.
  - intros i w Hw. by apply lookup_replicate in Hw as [-> _].
  - intros i Hi. apply lookup_replicate_2. lia.
  - rewrite total_replicate. by rewrite Z2Nat.id.
Qed.

Lemma initialization_all_equal_witness :
  0 ≤ NUMPLAYERS notebook
  ∧ Z.of_nat (length (simulate_init notebook)) = 100
  ∧ (∀ i w, simulate_init notebook !! i = Some w → w = 50)
  ∧ (∀ i, 0 ≤ i < 100 → simulate_init notebook !! Z.to_nat i = Some 50)
  ∧ total (simulate_init notebook) = 100 * 50.
Proof.
  assert (HN : 0 ≤ NUMPLAYERS notebook) by (simpl; lia).
  split; [exact HN |]. exact (initialization_all_equal notebook HN).
Defined.

(** C5 (the stream).  Asking the generator [k] times, for any [k], yields
    [k] snapshots and never ends the stream: the one at position [j]
    (from 0) is the result of [j + 1] passes from the initial
    distribution, so the first is one pass away from it and the initial
    distribution is not yielded first; the source is left where [k] passes
    leave it, nothing being computed ahead; and asking [m] more times goes
    on from there, never from the start again. *)
Theorem stream_semantics {G : Type} `{!RandomSource G}
    (cfg : config) (k : nat) (g : G) :
  ∃ xs gen' g',
    pulls cfg k simulate g = (Ok xs, gen', g')
    ∧ length xs = k
    ∧ (∀ x, xs !! O = Some x → (simulate_step cfg (simulate_init cfg) g).1 = Ok x)
    ∧ (∀ j x, xs !! j = Some x →
              ∃ gj, steps cfg (S j) (simulate_init cfg) g = (Ok x, gj))
    ∧ (∃ x, steps cfg k (simulate_init cfg) g = (Ok x, g'))
    ∧ (∀ m, ∃ ys gen'' g'',
          pulls cfg m gen' g' = (Ok ys, gen'', g'')
          ∧ length ys = m
          ∧ pulls cfg (k + m) simulate g = (Ok (xs ++ ys), gen'', g'')).
Proof.
  destruct (pulls_steps cfg k simulate (simulate_init cfg) g)
    as (xs & gen' & g' & Hpulls & Hlen & Hnth & (x & Hx & Hpend));
    [done | apply simulate_init_sized |].
  exists xs, gen', g'. repeat split; [done | done | | done | by exists x |].
  - intros y Hy. destruct (Hnth O y Hy) as (g1 & Hg1).
    simpl in Hg1. unfold bind in Hg1.
    destruct (simulate_step cfg (simulate_init cfg) g) as [[z|e] gz]; [|done].
    by inversion Hg1.
  - intros m.
    assert (Hsized : sized cfg x).
    { destruct (steps_ok cfg k (simulate_init cfg) g (simulate_init_sized cfg))
        as (x' & g'' & Hx' & Hs). rewrite Hx in Hx'. by inversion Hx'; subst. }
    destruct (pulls_steps cfg m gen' x g' Hpend Hsized)
      as (ys & gen'' & g'' & Hys & Hlenys & _).
    exists ys, gen'', g''. repeat split; [done | done |].
    rewrite pulls_add. by rewrite Hpulls, Hys.
Qed.

(** C6 (error handling), against the description: with no player, or a
    negative number of players, nothing is raised and the generator yields
    the empty list every time. *)
Lemma no_error_below_one_player :
  NUMPLAYERS (Config 50 0) < 1
  ∧ @pulls _ tape_source (Config 50 0) 3 simulate [4; 2]
    = (Ok [[]; []; []], Suspended [], [4; 2])
  ∧ NUMPLAYERS (Config 50 (-3)) < 1
  ∧ @pulls _ tape_source (Config 50 (-3)) 3 simulate [4; 2]
    = (Ok [[]; []; []], Suspended [], [4; 2]).
Proof. repeat split; simpl; lia. Qed.

(** C6 (error handling), as the notebook has it.  The generator has no check of its
    configuration and nothing in it raises: for every configuration every
    pull yields a snapshot and every pass on a list of [NUMPLAYERS] entries
    succeeds; with fewer than one player the initial list is empty, every
    snapshot is the empty list and the source is never touched. *)
Theorem no_operation_fails {G : Type} `{!RandomSource G} (cfg : config) :
  (∀ k g, ∃ xs gen' g',
      pulls cfg k simulate g = (Ok xs, gen', g') ∧ length xs = k)
  ∧ (∀ prev_step g,
       sized cfg prev_step →
       ∃ next_step g', simulate_step cfg prev_step g = (Ok next_step, g'))
  ∧ (NUMPLAYERS cfg < 1 →
     simulate_init cfg = []
     ∧ ∀ k g, ∃ gen', pulls cfg k simulate g = (Ok (replicate k []), gen', g)).
Proof.
  repeat split.
  - intros k g.
    destruct (pulls_steps cfg k simulate (simulate_init cfg) g)
      as (xs & gen' & g' & Hpulls & Hlen & _); [done | apply simulate_init_sized |].
    by exists xs, gen', g'.
  - intros prev_step g Hsized.
    destruct (simulate_step_gives cfg prev_step g Hsized) as (rs & g' & _ & Hrun & _).
    by eexists _, g'.
  - by apply simulate_init_empty.
  - intros k g. destruct (pulls_empty cfg k simulate g) as (gen' & Hpulls & _).
    + simpl. f_equal. by apply simulate_init_empty.
    + by exists gen'.
Qed.

Lemma no_operation_fails_witness :
  (sized (Config 2 3) [3; 0; 1]
   ∧ ∃ next_step g',
       @simulate_step _ tape_source (Config 2 3) [3; 0; 1] [5; 7] = (Ok next_step, g'))
  ∧ (NUMPLAYERS (Config 50 (-3)) < 1
     ∧ simulate_init (Config 50 (-3)) = []
     ∧ ∀ k g, ∃ gen',
         @pulls _ tape_source (Config 50 (-3)) k simulate g
         = (Ok (replicate k []), gen', g)).
Proof.
  assert (Hs : sized (Config 2 3) [3; 0; 1]) by reflexivity.
  assert (HN : NUMPLAYERS (Config 50 (-3)) < 1) by (simpl; lia).
  split.
  - split; [exact Hs |].
    exact (proj1 (proj2 (@no_operation_fails _ tape_source (Config 2 3)))
             [3; 0; 1] [5; 7] Hs).
  - split; [exact HN |].
    exact (proj2 (proj2 (@no_operation_fails _ tape_source (Config 50 (-3)))) HN).
Defined.



(** C8 (randomness consumed).  A pass on a distribution with no negative
    entry calls [random.randint(0, NUMPLAYERS - 1)] once for each entry
    that is positive and never otherwise: it leaves the source where that
    many calls in a row leave it, and the result is the decremented list
    with one unit added at each index drawn. *)
Theorem randomness_consumption {G : Type} `{!RandomSource G}
    (cfg : config) (prev_step : list Z) (g : G) :
  sized cfg prev_step → Forall (λ w, 0 ≤ w) prev_step →
  ∃ rs next_step g',
    simulate_step cfg prev_step g = (Ok next_step, g')
    ∧ randints cfg (length (filter (λ w, 0 < w) prev_step)) g = (Ok rs, g')
    ∧ length rs = length (filter (λ w, 0 < w) prev_step)
    ∧ next_step = gives rs (simulate_decrement prev_step).
Proof.
  intros Hsized Hpos.
  destruct (simulate_step_gives cfg prev_step g Hsized)
    as (rs & g' & Hdraws & Hrun & Hlen & _).
  rewrite givers_positive in Hdraws, Hlen by done.
  by exists rs, (gives rs (simulate_decrement prev_step)), g'.
Qed.

Lemma randomness_consumption_witness :
  sized (Config 2 3) [3; 0; 1] ∧ Forall (λ w, 0 ≤ w) [3; 0; 1]
  ∧ ∃ rs next_step g',
      @simulate_step _ tape_source (Config 2 3) [3; 0; 1] [5; 7; 9] = (Ok next_step, g')
      ∧ @randints _ tape_source (Config 2 3)
          (length (filter (λ w, 0 < w) [3; 0; 1])) [5; 7; 9] = (Ok rs, g')
      ∧ length rs = length (filter (λ w, 0 < w) [3; 0; 1])
      ∧ next_step = gives rs (simulate_decrement [3; 0; 1]).
Proof.
  assert (Hs : sized (Config 2 3) [3; 0; 1]) by reflexivity.
  assert (Hp : Forall (λ w, 0 ≤ w) [3; 0; 1]) by (repeat constructor; lia).
  split; [exact Hs |]. split; [exact Hp |].
  exact (@randomness_consumption _ tape_source (Config 2 3) [3; 0; 1] [5; 7; 9] Hs Hp).
Defined.

(** C9 (one agent).  With one player and five units every draw is the
    player's own index, so every snapshot the generator yields is [[5]],
    of sum 5, for as long as it is asked. *)
Theorem single_agent_steady_state {G : Type} `{!RandomSource G} (k : nat) (g : G) :
  ∃ xs gen' g',
    pulls (Config 5 1) k simulate g = (Ok xs, gen', g')
    ∧ length xs = k
    ∧ ∀ j x, xs !! j = Some x → x = [5] ∧ total x = 5.
Proof.
  destruct (pulls_Forall (Config 5 1) (λ x, x = [5]) k g)
    as (xs & gen' & g' & Hpulls & Hlen & Hall).
  - intros prev_step g0 next_step g0' _ -> Hstep.
    unfold simulate_step in Hstep. simpl in Hstep. unfold bind at 1 in Hstep.
    destruct (randint_ok 0 (1 - 1) g0) as (r & g1 & Hr & Hin); [lia |].
    rewrite Hr in Hstep. assert (r = 0) as -> by lia.
    by inversion Hstep.
  - done.
  - exists xs, gen', g'. split; [done |]. split; [done |].
    intros j x Hx. by rewrite (proj1 (Forall_lookup _ _) Hall j x Hx).
Qed.

(** C10 (bounded loss per tick).  Whatever the previous distribution and the
    random source, a pass of the loop leaves at every index at least the
    previous wealth less one. *)
Theorem bounded_loss_per_tick {G : Type} `{!RandomSource G}
    (cfg : config) (prev_step : list Z) (g : G) :
  sized cfg prev_step →
  ∃ next_step g',
    simulate_step cfg prev_step g = (Ok next_step, g')
    ∧ length next_step = length prev_step
    ∧ ∀ i w, prev_step !! i = Some w →
             ∃ w', next_step !! i = Some w' ∧ w - 1 ≤ w'.
Proof.
  intros Hsized.
  destruct (simulate_step_lookup cfg prev_step g Hsized)
    as (rs & next_step & g' & Hrun & Hlen & Hnth).
  exists next_step, g'. repeat split; [done | done |].
  intros i w Hw. rewrite Hnth, Hw. simpl.
  exists (Z.max 0 (w - 1) + received i rs). split; [done |].
  pose proof (received_nonneg i rs). lia.
Qed.

Lemma bounded_loss_per_tick_witness :
  sized (Config 2 3) [3; 0; 1]
  ∧ ∃ next_step g',
      @simulate_step _ tape_source (Config 2 3) [3; 0; 1] [5; 7] = (Ok next_step, g')
      ∧ length next_step = length [3; 0; 1]
      ∧ ∀ i w, [3; 0; 1] !! i = Some w →
               ∃ w', next_step !! i = Some w' ∧ w - 1 ≤ w'.
Proof.
  assert (Hs : sized (Config 2 3) [3; 0; 1]) by reflexivity.
  split; [exact Hs |].
  exact (@bounded_loss_per_tick _ tape_source (Config 2 3) [3; 0; 1] [5; 7] Hs).
Defined.

(** * Further properties of [simulate] *)

Section MoreOnSimulate.
Context {G : Type} `{!RandomSource G}.
Variable cfg : config.

Lemma received_Permutation (j : nat) (rs rs' : list Z) :
  rs ≡ₚ rs' → received j rs = received j rs'.
Proof. intros Hp. unfold received. by rewrite Hp. Qed.

(** The order of the draws does not matter, only how often each index
    was drawn. *)
Lemma gives_Permutation (rs rs' l : list Z) :
  rs ≡ₚ rs' → gives rs l = gives rs' l.
Proof.
  intros Hp. apply list_eq. intros j.
  by rewrite !lookup_gives, (received_Permutation j rs rs' Hp).
Qed.

(** A list of zeros: nobody gives, nothing is drawn, nothing changes. *)
Lemma simulate_hand_out_zeros (prev_step next_step : list Z) (g : G) :
  Forall (λ w, w = 0) prev_step →
  simulate_hand_out cfg prev_step next_step g = (Ok next_step, g).
Proof.
  induction 1 as [|w rest -> _ IH]; [done |]. simpl. exact IH.
Qed.

Lemma simulate_step_zeros (prev_step : list Z) (g : G) :
  Forall (λ w, w = 0) prev_step →
  simulate_step cfg prev_step g = (Ok prev_step, g).
Proof.
  intros Hz. unfold simulate_step. rewrite simulate_hand_out_zeros by done.
  f_equal. f_equal. unfold simulate_decrement.
  induction Hz as [|w rest -> _ IH]; [done |]. rewrite fmap_cons. by rewrite IH.
Qed.

Lemma pulls_zeros (k : nat) (gen : generator) (prev_step : list Z) (g : G) :
  pending cfg gen = Some prev_step → Forall (λ w, w = 0) prev_step →
  ∃ gen', pulls cfg k gen g = (Ok (replicate k prev_step), gen', g)
          ∧ pending cfg gen' = Some prev_step.
Proof.
  intros Hgen Hz. revert gen Hgen. induction k as [|k IH]; intros gen Hgen.
  - by exists gen.
  - assert (Hnext : next cfg gen g = (Ok prev_step, Suspended prev_step, g)).
    { destruct gen; simpl in Hgen; try done; inversion Hgen as [Hinit];
        simpl; unfold run_to_yield; rewrite ?Hinit;
        by rewrite simulate_step_zeros. }
    destruct (IH (Suspended prev_step)) as (gen' & Hpulls & Hpend); [done |].
    exists gen'. split; [|done]. simpl. by rewrite Hnext, Hpulls.
Qed.

(** An entry is at most the sum, when no entry is negative. *)
Lemma lookup_le_total (l : list Z) (i : nat) (w : Z) :
  Forall (λ w, 0 ≤ w) l → l !! i = Some w → w ≤ total l.
Proof.
  intros Hpos. revert i. induction Hpos as [|x l Hx Hl IH]; intros i Hi; [done |].
  assert (0 ≤ total l).
  { clear -Hl. induction Hl as [|y l Hy _ IH]; simpl; lia. }
  destruct i as [|i]; simpl in *.
  - inversion Hi; subst. lia.
  - specialize (IH i Hi). lia.
Qed.

(** With a negative initial wealth every player counts as a giver on the
    first pass and ends it at zero plus what was drawn. *)
Lemma simulate_step_negative_init (g : G) :
  INITWEALTH cfg < 0 →
  ∃ next_step g', simulate_step cfg (simulate_init cfg) g = (Ok next_step, g')
    ∧ sized cfg next_step
    ∧ Forall (λ w, 0 ≤ w) next_step
    ∧ total next_step = Z.of_nat (Z.to_nat (NUMPLAYERS cfg)).
Proof.
  intros HW.
  destruct (simulate_step_gives cfg (simulate_init cfg) g (simulate_init_sized cfg))
    as (rs & g' & _ & Hrun & Hlen & Hall).
  destruct (simulate_step_nonneg cfg (simulate_init cfg) g (simulate_init_sized cfg))
    as (y & g1 & Hy & Hnn).
  rewrite Hrun in Hy. inversion Hy; subst y g1.
  eexists _, g'. split; [exact Hrun |]. split; [|split; [done |]].
  { eapply simulate_step_sized; [apply simulate_init_sized | exact Hrun]. }
  rewrite total_gives.
  2:{ apply (draws_in_range cfg); [|done].
      rewrite simulate_decrement_length. apply simulate_init_sized. }
  rewrite Hlen. unfold simulate_init, list_mul, simulate_decrement, givers.
  generalize (Z.to_nat (NUMPLAYERS cfg)) as n.
  induction n as [|n IH]; [done |].
  simpl replicate. rewrite fmap_cons, filter_cons.
  rewrite decide_True by lia. simpl total. simpl length.
  simpl in IH. lia.
Qed.

End MoreOnSimulate.

(** X1 (length of a snapshot).  Every snapshot the generator yields has
    [NUMPLAYERS] entries, none when [NUMPLAYERS] is negative: the loop
    neither adds nor drops a player. *)
Theorem snapshot_length {G : Type} `{!RandomSource G}
    (cfg : config) (k : nat) (g : G) :
  ∃ xs gen' g',
    pulls cfg k simulate g = (Ok xs, gen', g')
    ∧ length xs = k
    ∧ ∀ j x, xs !! j = Some x → length x = Z.to_nat (NUMPLAYERS cfg).
Proof.
  destruct (pulls_Forall cfg (sized cfg) k g)
    as (xs & gen' & g' & Hpulls & Hlen & Hall).
  - intros prev_step g0 next_step g0' Hsized _ Hstep.
    by eapply simulate_step_sized.
  - apply simulate_init_sized.
  - exists xs, gen', g'. split; [done |]. split; [done |].
    intros j x Hx. exact (proj1 (Forall_lookup _ _) Hall j x Hx).
Qed.

(** X2 (what a pass leaves at each index).  After a pass on a list of
    [NUMPLAYERS] entries, the entry at an index is the old one less a unit,
    not below zero, plus the number of draws that fell on that index, the
    draws being one call of [random.randint(0, NUMPLAYERS - 1)] for each
    entry that is not zero; an entry at zero ends at the number of draws
    it received. *)
Theorem step_entry_by_entry {G : Type} `{!RandomSource G}
    (cfg : config) (prev_step : list Z) (g : G) :
  sized cfg prev_step →
  ∃ rs next_step g',
    simulate_step cfg prev_step g = (Ok next_step, g')
    ∧ randints cfg (length (filter (λ w, w ≠ 0) prev_step)) g = (Ok rs, g')
    ∧ length next_step = length prev_step
    ∧ (∀ j w, prev_step !! j = Some w →
              next_step !! j = Some (Z.max 0 (w - 1) + received j rs))
    ∧ (∀ j, prev_step !! j = Some 0 → next_step !! j = Some (received j rs)).
Proof.
  intros Hsized.
  destruct (simulate_step_gives cfg prev_step g Hsized)
    as (rs & g' & Hdraws & Hrun & _ & _).
  exists rs, (gives rs (simulate_decrement prev_step)), g'.
  assert (Hnth : ∀ j w, prev_step !! j = Some w →
             gives rs (simulate_decrement prev_step) !! j
             = Some (Z.max 0 (w - 1) + received j rs)).
  { intros j w Hw. rewrite lookup_gives. unfold simulate_decrement.
    by rewrite list_lookup_fmap, Hw. }
  split; [done |]. split; [done |]. split; [|split; [done |]].
  - by rewrite gives_length, simulate_decrement_length.
  - intros j Hj. by rewrite (Hnth j 0 Hj).
Qed.

Lemma step_entry_by_entry_witness :
  sized (Config 2 3) [3; 0; 1]
  ∧ ∃ rs next_step g',
      @simulate_step _ tape_source (Config 2 3) [3; 0; 1] [5; 7; 9] = (Ok next_step, g')
      ∧ @randints _ tape_source (Config 2 3)
          (length (filter (λ w, w ≠ 0) [3; 0; 1])) [5; 7; 9] = (Ok rs, g')
      ∧ length next_step = length [3; 0; 1]
      ∧ (∀ j w, [3; 0; 1] !! j = Some w →
                next_step !! j = Some (Z.max 0 (w - 1) + received j rs))
      ∧ (∀ j, [3; 0; 1] !! j = Some 0 → next_step !! j = Some (received j rs)).
Proof.
  assert (Hs : sized (Config 2 3) [3; 0; 1]) by reflexivity.
  split; [exact Hs |].
  exact (@step_entry_by_entry _ tape_source (Config 2 3) [3; 0; 1] [5; 7; 9] Hs).
Defined.

(** X3 (the order of the draws does not matter).  Two passes on the same
    list whose draws are the same numbers in a different order yield the
    same list: a snapshot depends on how often each index was drawn, not on
    which giver drew it. *)
Theorem step_order_of_draws_irrelevant
    {G1 G2 : Type} `{!RandomSource G1} `{!RandomSource G2}
    (cfg : config) (prev_step rs1 rs2 : list Z) (g1 g1' : G1) (g2 g2' : G2) :
  sized cfg prev_step →
  randints cfg (length (filter (λ w, w ≠ 0) prev_step)) g1 = (Ok rs1, g1') →
  randints cfg (length (filter (λ w, w ≠ 0) prev_step)) g2 = (Ok rs2, g2') →
  rs1 ≡ₚ rs2 →
  ∃ next_step,
    simulate_step cfg prev_step g1 = (Ok next_step, g1')
    ∧ simulate_step cfg prev_step g2 = (Ok next_step, g2').
Proof.
  intros Hsized H1 H2 Hp.
  destruct (simulate_step_gives cfg prev_step g1 Hsized) as (r1 & h1 & Hd1 & Hrun1 & _).
  destruct (simulate_step_gives cfg prev_step g2 Hsized) as (r2 & h2 & Hd2 & Hrun2 & _).
  unfold givers in Hd1, Hd2. rewrite H1 in Hd1. rewrite H2 in Hd2.
  inversion Hd1; subst r1 h1. inversion Hd2; subst r2 h2.
  exists (gives rs1 (simulate_decrement prev_step)). split; [done |].
  by rewrite (gives_Permutation rs1 rs2 _ Hp).
Qed.

Lemma step_order_of_draws_irrelevant_witness :
  sized (Config 2 3) [3; 0; 1]
  ∧ @randints _ tape_source (Config 2 3)
      (length (filter (λ w, w ≠ 0) [3; 0; 1])) [1; 2] = (Ok [1; 2], [])
  ∧ @randints _ tape_source (Config 2 3)
      (length (filter (λ w, w ≠ 0) [3; 0; 1])) [2; 1; 0] = (Ok [2; 1], [0])
  ∧ [1; 2] ≡ₚ [2; 1]
  ∧ ∃ next_step,
      @simulate_step _ tape_source (Config 2 3) [3; 0; 1] [1; 2] = (Ok next_step, [])
      ∧ @simulate_step _ tape_source (Config 2 3) [3; 0; 1] [2; 1; 0]
        = (Ok next_step, [0]).
Proof.
  assert (Hs : sized (Config 2 3) [3; 0; 1]) by reflexivity.
  assert (H1 : @randints _ tape_source (Config 2 3)
                 (length (filter (λ w, w ≠ 0) [3; 0; 1])) [1; 2] = (Ok [1; 2], []))
    by reflexivity.
  assert (H2 : @randints _ tape_source (Config 2 3)
                 (length (filter (λ w, w ≠ 0) [3; 0; 1])) [2; 1; 0] = (Ok [2; 1], [0]))
    by reflexivity.
  assert (Hp : [1; 2] ≡ₚ [2; 1]) by apply perm_swap.
  split; [exact Hs |]. split; [exact H1 |]. split; [exact H2 |]. split; [exact Hp |].
  exact (@step_order_of_draws_irrelevant _ _ tape_source tape_source (Config 2 3)
           [3; 0; 1] [1; 2] [2; 1] [1; 2] [] [2; 1; 0] [0] Hs H1 H2 Hp).
Defined.

(** A pass keeps "no negative entry, and this sum" together. *)
Lemma simulate_step_keeps_sum {G : Type} `{!RandomSource G}
    (cfg : config) (c : Z) (prev_step next_step : list Z) (g g' : G) :
  sized cfg prev_step →
  Forall (λ w, 0 ≤ w) prev_step ∧ total prev_step = c →
  simulate_step cfg prev_step g = (Ok next_step, g') →
  Forall (λ w, 0 ≤ w) next_step ∧ total next_step = c.
Proof.
  intros Hsized [Hpos Hsum] Hstep. split.
  - destruct (simulate_step_nonneg cfg prev_step g Hsized) as (y & g1 & Hy & Hnn).
    rewrite Hy in Hstep. by inversion Hstep; subst.
  - destruct (simulate_step_total cfg prev_step g Hsized Hpos) as (y & g1 & Hy & Ht).
    rewrite Hy in Hstep. inversion Hstep; subst. by rewrite Ht.
Qed.

(** X4 (nobody has anything).  A pass on a list of zeros, of any length,
    returns the list as it is and draws nothing; so with an initial wealth
    of zero every snapshot is the initial list of zeros and the source is
    never touched. *)
Theorem zero_wealth_never_moves {G : Type} `{!RandomSource G} (cfg : config) :
  (∀ prev_step g,
      Forall (λ w, w = 0) prev_step →
      simulate_step cfg prev_step g = (Ok prev_step, g))
  ∧ (INITWEALTH cfg = 0 →
     ∀ k g, ∃ gen',
       pulls cfg k simulate g = (Ok (replicate k (simulate_init cfg)), gen', g)).
Proof.
  split; [apply simulate_step_zeros |].
  intros HW k g.
  destruct (pulls_zeros cfg k simulate (simulate_init cfg) g) as (gen' & Hpulls & _).
  - done.
  - unfold simulate_init, list_mul. by apply Forall_replicate.
  - by exists gen'.
Qed.

Lemma zero_wealth_never_moves_witness :
  (Forall (λ w, w = 0) [0; 0; 0]
   ∧ @simulate_step _ tape_source (Config 0 7) [0; 0; 0] [4; 2] = (Ok [0; 0; 0], [4; 2]))
  ∧ (INITWEALTH (Config 0 3) = 0
     ∧ ∀ k g, ∃ gen',
         @pulls _ tape_source (Config 0 3) k simulate g
         = (Ok (replicate k (simulate_init (Config 0 3))), gen', g)).
Proof.
  assert (Hz : Forall (λ w, w = 0) [0; 0; 0]) by (repeat constructor).
  assert (HW : INITWEALTH (Config 0 3) = 0) by reflexivity.
  split.
  - split; [exact Hz |].
    exact (proj1 (@zero_wealth_never_moves _ tape_source (Config 0 7)) [0; 0; 0] [4; 2] Hz).
  - split; [exact HW |].
    exact (proj2 (@zero_wealth_never_moves _ tape_source (Config 0 3)) HW).
Defined.

(** X5 (a negative initial wealth).  [if wealth:] takes a negative wealth
    for true, so with [INITWEALTH] below zero every player gives on the
    first pass and is raised to zero: every snapshot has no negative entry
    and sums to the number of players, not to [NUMPLAYERS * INITWEALTH]. *)
Theorem negative_initial_wealth {G : Type} `{!RandomSource G}
    (cfg : config) (k : nat) (g : G) :
  INITWEALTH cfg < 0 →
  ∃ xs gen' g',
    pulls cfg k simulate g = (Ok xs, gen', g')
    ∧ length xs = k
    ∧ ∀ j x, xs !! j = Some x →
             total x = Z.max 0 (NUMPLAYERS cfg)
             ∧ ∀ i w, x !! i = Some w → 0 ≤ w.
Proof.
  intros HW.
  destruct (pulls_steps cfg k simulate (simulate_init cfg) g)
    as (xs & gen' & g' & Hpulls & Hlen & Hnth & _);
    [done | apply simulate_init_sized |].
  exists xs, gen', g'. split; [done |]. split; [done |].
  intros j x Hx. destruct (Hnth j x Hx) as (gj & Hgj).
  destruct (simulate_step_negative_init cfg g HW)
    as (y & g1 & Hy & Hsized & Hnn & Htot).
  change (steps cfg (S j) (simulate_init cfg) g)
    with (bind (simulate_step cfg (simulate_init cfg)) (steps cfg j) g) in Hgj.
  unfold bind in Hgj. rewrite Hy in Hgj.
  assert (HP : Forall (λ w, 0 ≤ w) x ∧ total x = Z.max 0 (NUMPLAYERS cfg)).
  { eapply (steps_invariant cfg
              (λ l, Forall (λ w, 0 ≤ w) l ∧ total l = Z.max 0 (NUMPLAYERS cfg)));
      [| exact Hsized | | exact Hgj].
    - intros p g0 n g0' Hs HPp Hstep.
      by eapply (simulate_step_keeps_sum cfg).
    - split; [done |]. rewrite Htot. lia. }
  destruct HP as [Hpos Hsum]. split; [done |].
  intros i w Hw. exact (proj1 (Forall_lookup _ _) Hpos i w Hw).
Qed.

Lemma negative_initial_wealth_witness :
  INITWEALTH (Config (-4) 3) < 0
  ∧ ∃ xs gen' g',
      @pulls _ tape_source (Config (-4) 3) 2 simulate [1; 1; 2; 0] = (Ok xs, gen', g')
      ∧ length xs = 2%nat
      ∧ ∀ j x, xs !! j = Some x →
               total x = Z.max 0 (NUMPLAYERS (Config (-4) 3))
               ∧ ∀ i w, x !! i = Some w → 0 ≤ w.
Proof.
  assert (HW : INITWEALTH (Config (-4) 3) < 0) by (simpl; lia).
  split; [exact HW |].
  exact (@negative_initial_wealth _ tape_source (Config (-4) 3) 2 [1; 1; 2; 0] HW).
Defined.

(** X6 (bounds on a wealth).  With an initial wealth and a number of
    players that are not negative, every entry of every snapshot lies
    between 0 and [NUMPLAYERS * INITWEALTH]: nobody ever holds more than all
    there is. *)
Theorem wealth_bounds {G : Type} `{!RandomSource G}
    (cfg : config) (k : nat) (g : G) :
  0 ≤ INITWEALTH cfg → 0 ≤ NUMPLAYERS cfg →
  ∃ xs gen' g',
    pulls cfg k simulate g = (Ok xs, gen', g')
    ∧ length xs = k
    ∧ ∀ j x i w, xs !! j = Some x → x !! i = Some w →
                 0 ≤ w ≤ NUMPLAYERS cfg * INITWEALTH cfg.
Proof.
  intros HW HN.
  assert (Htot : total (simulate_init cfg) = NUMPLAYERS cfg * INITWEALTH cfg).
  { unfold simulate_init, list_mul. rewrite total_replicate. by rewrite Z2Nat.id. }
  destruct (pulls_Forall cfg
              (λ x, Forall (λ w, 0 ≤ w) x
                    ∧ total x = NUMPLAYERS cfg * INITWEALTH cfg) k g)
    as (xs & gen' & g' & Hpulls & Hlen & Hall).
  - intros p g0 n g0' Hs HPp Hstep. by eapply (simulate_step_keeps_sum cfg).
  - split; [|done]. unfold simulate_init, list_mul. by apply Forall_replicate.
  - exists xs, gen', g'. split; [done |]. split; [done |].
    intros j x i w Hx Hw.
    destruct (proj1 (Forall_lookup _ _) Hall j x Hx) as [Hpos Hsum].
    split; [exact (proj1 (Forall_lookup _ _) Hpos i w Hw) |].
    rewrite <- Hsum. by eapply lookup_le_total.
Qed.

Lemma wealth_bounds_witness :
  0 ≤ INITWEALTH notebook ∧ 0 ≤ NUMPLAYERS notebook
  ∧ ∃ xs gen' g',
      @pulls _ tape_source notebook 2 simulate [] = (Ok xs, gen', g')
      ∧ length xs = 2%nat
      ∧ ∀ j x i w, xs !! j = Some x → x !! i = Some w →
                   0 ≤ w ≤ NUMPLAYERS notebook * INITWEALTH notebook.
Proof.
  assert (HW : 0 ≤ INITWEALTH notebook) by (simpl; lia).
  assert (HN : 0 ≤ NUMPLAYERS notebook) by (simpl; lia).
  split; [exact HW |]. split; [exact HN |].
  exact (@wealth_bounds _ tape_source notebook 2 [] HW HN).
Defined.

(** * The rest of the notebook: drawing the frames, assembling the GIF

    [animate] and the two cells that follow [simulate]: the bars of the two
    charts, the frames saved to [img/] and the order the GIF takes them in.
    A chart is kept as the list of the heights of its bars, a saved frame as
    the heights of the bars of both charts when it was saved, the directory
    [img/] as a map from the path of a file to the frame in it.  The text
    of a path is a [string], of one-byte characters; the paths the notebook
    writes have no other. *)

(** ** Text: the name of a frame and the key it is sorted by *)

(** A character of ASCII, which the paths of the notebook are made of. *)
Definition is_ascii (c : Ascii.ascii) : bool :=
  bool_decide (Z.of_N (Ascii.N_of_ascii c) < 128).

(** A name of ASCII characters only.  [re] and [int] also know the decimal
    digits of other scripts; on a name of ASCII characters the digits are
    ["0"] to ["9"] and nothing else, which is what [is_digit] tests. *)
Fixpoint ascii_only (x : string) : bool :=
  match x with
  | EmptyString => true
  | String c s => is_ascii c && ascii_only s
  end.

Definition is_digit (c : Ascii.ascii) : bool :=
  let n := Z.of_N (Ascii.N_of_ascii c) in bool_decide (48 ≤ n ≤ 57).

Definition digit_value (c : Ascii.ascii) : Z := Z.of_N (Ascii.N_of_ascii c) - 48.

(** [re.sub('\D', '', x)] on a name of ASCII characters: [x] without the
    characters that are not digits. *)
Fixpoint remove_nondigits (x : string) : string :=
  match x with
  | EmptyString => EmptyString
  | String c s =>
      if is_digit c then String c (remove_nondigits s) else remove_nondigits s
  end.

Fixpoint all_digits (s : string) : bool :=
  match s with
  | EmptyString => true
  | String c s' => is_digit c && all_digits s'
  end.

(** The number a string of digits reads as, after the digits read so far. *)
Fixpoint int_digits (s : string) (acc : Z) : Z :=
  match s with
  | EmptyString => acc
  | String c s' => int_digits s' (10 * acc + digit_value c)
  end.

(** [int(s)] for the strings the substitution leaves, which hold digits
    only: the empty string raises [ValueError], zeros in front are read
    away.  ([int] also reads a sign, blanks and underscores; none is left
    when it is called here, and any other character raises as well.  The
    number of digits is not limited, as in the Python of the notebook.) *)
Definition int_of_digits (s : string) : result Z :=
  match s with
  | EmptyString => Raise ValueError
  | _ => if all_digits s then Ok (int_digits s 0) else Raise ValueError
  end.

(** [lambda x: int(re.sub('\D', '', x))] *)
Definition sort_key (x : string) : result Z := int_of_digits (remove_nondigits x).

(** [str(p / f'{step}.png')] with [p = pathlib.Path('img/')], on a system
    whose paths are joined by a slash; [pretty] writes an integer as [str]
    does, in decimal, with a minus sign below zero. *)
Definition frame_path (step : Z) : string := "img/" +:+ pretty step +:+ ".png".

(** ** Sorting *)

(** [sorted] and [list.sort] are stable: of two items with the same key the
    one that came first stays first.  That fixes the result, which is what
    inserting the items one by one, from the last to the first, each before
    the first item whose key is not smaller, gives. *)
Fixpoint stable_insert {A : Type} (key : A → Z) (x : A) (l : list A) : list A :=
  match l with
  | [] => [x]
  | y :: l' =>
      if bool_decide (key x ≤ key y) then x :: y :: l'
      else y :: stable_insert key x l'
  end.

Definition stable_sort {A : Type} (key : A → Z) (l : list A) : list A :=
  foldr (stable_insert key) [] l.

(** [sorted(bank_step)] *)
Definition sorted (bank_step : list Z) : list Z := stable_sort id bank_step.

(** The keys of [filenames.sort(key=...)], computed for every name, in
    order, before anything is moved; the first that raises ends the call. *)
Fixpoint sort_keys (filenames : list string) : result (list (Z * string)) :=
  match filenames with
  | [] => Ok []
  | x :: rest =>
      match sort_key x with
      | Raise e => Raise e
      | Ok k =>
          match sort_keys rest with
          | Raise e => Raise e
          | Ok keyed => Ok ((k, x) :: keyed)
          end
      end
  end.

(** [filenames.sort(key=lambda x: int(re.sub('\D', '', x)))] *)
Definition sort_filenames (filenames : list string) : result (list string) :=
  match sort_keys filenames with
  | Raise e => Raise e
  | Ok keyed => Ok ((stable_sort fst keyed).*2)
  end.

(** ** The charts and [animate] *)

(** A saved frame: the heights of the bars of the top chart and of the
    bottom chart. *)
Definition frame : Type := list Z * list Z.

(** The globals [animate] works on: the generator [bank] and the bars [p1]
    (sorted each step) and [p2] (original order). *)
Record globals : Type := Globals {
  bank : generator;
  p1 : list Z;
  p2 : list Z
}.

(** The loop [for idx, (r1, r2) in enumerate(zip(p1, p2))]: [todo] pairs of
    bars are left, the next at [idx]. *)
Fixpoint set_heights (todo idx : nat) (ordered_bank_step bank_step : list Z)
    (p1 p2 : list Z) : result (list Z * list Z) :=
  match todo with
  | O => Ok (p1, p2)
  | S todo' =>
      match getitem ordered_bank_step (Z.of_nat idx) with
      | Raise e => Raise e
      | Ok h1 =>
          match getitem bank_step (Z.of_nat idx) with
          | Raise e => Raise e
          | Ok h2 =>
              set_heights todo' (S idx) ordered_bank_step bank_step
                (<[idx := h1]> p1) (<[idx := h2]> p2)
          end
      end
  end.

Section Drawing.
Context {G : Type} `{!RandomSource G}.
Variable cfg : config.

(** [animate(i)]; an exception ends it. *)
Definition animate (i : Z) (st : globals) (g : G) : result globals * G :=
  match next cfg (bank st) g with
  | (Raise e, _, g') => (Raise e, g')
  | (Ok bank_step, bank', g') =>
      let ordered_bank_step := sorted bank_step in
      match set_heights (length (p1 st) `min` length (p2 st)) 0
              ordered_bank_step bank_step (p1 st) (p2 st) with
      | Raise e => (Raise e, g')
      | Ok (p1', p2') => (Ok (Globals bank' p1' p2'), g')
      end
  end.

(** [for step in range(STEPS): animate(step); plt.savefig(p / f'{step}.png')],
    with [todo] steps left from [step] on. *)
Fixpoint save_frames (todo : nat) (step : Z) (st : globals)
    (img : gmap string frame) (g : G) : result globals * gmap string frame * G :=
  match todo with
  | O => (Ok st, img, g)
  | S todo' =>
      match animate step st g with
      | (Raise e, g') => (Raise e, img, g')
      | (Ok st', g') =>
          save_frames todo' (step + 1) st'
            (<[frame_path step := (p1 st', p2 st')]> img) g'
      end
  end.

(** The drawing cell: the generator is made and asked once for
    [init_state], both charts get one bar for each of its entries, and
    [STEPS] frames are saved. *)
Definition draw (STEPS : Z) (img : gmap string frame) (g : G)
  : result globals * gmap string frame * G :=
  match next cfg simulate g with
  | (Raise e, _, g') => (Raise e, img, g')
  | (Ok init_state, bank, g') =>
      save_frames (Z.to_nat STEPS) 0 (Globals bank init_state init_state) img g'
  end.

End Drawing.

(** [STEPS = 1000] *)
Definition STEPS : Z := 1000.

(** ** The GIF *)

(** [imageio.imread(f)] for every name in turn; [None] when a file is
    missing, where [imread] raises. *)
Definition read_frames (img : gmap string frame) (filenames : list string)
  : option (list frame) :=
  mapM (λ f, img !! f) filenames.

(** The last cell, from what [p.glob('*.png')] lists: the names sorted by
    their key, then the frames read in that order. *)
Definition make_gif (img : gmap string frame) (filenames : list string)
  : result (option (list frame)) :=
  match sort_filenames filenames with
  | Raise e => Raise e
  | Ok sorted_filenames => Ok (read_frames img sorted_filenames)
  end.

(** *** Runs on small inputs *)

Example frame_path_12 : frame_path 12 = "img/12.png"%string.
Proof. reflexivity. Qed.

Example sort_key_12 : sort_key "img/12.png" = Ok 12.
Proof. reflexivity. Qed.

Example sort_key_no_digit : sort_key "img/cover.png" = Raise ValueError.
Proof. reflexivity. Qed.

(** By number, not by text: ["img/10.png"] comes after ["img/9.png"]. *)
Example sort_filenames_by_number :
  sort_filenames ["img/10.png"; "img/9.png"; "img/0.png"]%string
  = Ok ["img/0.png"; "img/9.png"; "img/10.png"]%string.
Proof. reflexivity. Qed.

(** Same key: the order they came in. *)
Example sort_filenames_stable :
  sort_filenames ["img/2.png"; "img/01.png"; "img/1.png"]%string
  = Ok ["img/01.png"; "img/1.png"; "img/2.png"]%string.
Proof. reflexivity. Qed.

Example sorted_example : sorted [3; 0; 2; 0] = [0; 0; 2; 3].
Proof. reflexivity. Qed.

(** Two frames from two players with two units each. *)
Example draw_two_frames :
  @draw _ tape_source (Config 2 2) 2 ∅ [0; 0; 1; 0; 1; 1]
  = (Ok (Globals (Suspended [2; 2]) [2; 2] [2; 2]),
     <["img/1.png"%string := ([2; 2], [2; 2])]>
       (<["img/0.png"%string := ([1; 3], [3; 1])]> ∅),
     []).
Proof. reflexivity. Qed.

(** ** Lemmas on the text of a path *)

Section TextFacts.

Lemma is_digit_pretty_N_char (x : N) : is_digit (pretty_N_char x) = true.
Proof. unfold pretty_N_char. by repeat case_match. Qed.

Lemma digit_value_pretty_N_char (x : N) :
  (x < 10)%N → digit_value (pretty_N_char x) = Z.of_N x.
Proof.
  intros Hx. destruct x as [|p]; [reflexivity |].
  do 4 (try destruct p as [p|p|]; try reflexivity; try lia).
Qed.

Lemma remove_nondigits_pretty_N_go (x : N) (s : string) :
  remove_nondigits (pretty_N_go x s) = pretty_N_go x (remove_nondigits s).
Proof.
  revert s. induction (N.lt_wf_0 x) as [x _ IH]; intros s.
  destruct (decide (x = 0%N)) as [->|Hx]; [by rewrite !pretty_N_go_0 |].
  rewrite (pretty_N_go_step x s), (pretty_N_go_step x (remove_nondigits s)) by lia.
  rewrite IH by (apply N.div_lt; lia).
  simpl. by rewrite is_digit_pretty_N_char.
Qed.

Lemma all_digits_pretty_N_go (x : N) (s : string) :
  all_digits (pretty_N_go x s) = all_digits s.
Proof.
  revert s. induction (N.lt_wf_0 x) as [x _ IH]; intros s.
  destruct (decide (x = 0%N)) as [->|Hx]; [by rewrite !pretty_N_go_0 |].
  rewrite pretty_N_go_step by lia.
  rewrite IH by (apply N.div_lt; lia).
  simpl. by rewrite is_digit_pretty_N_char.
Qed.

Lemma int_digits_pretty_N_go (x : N) (s : string) :
  int_digits (pretty_N_go x s) 0 = int_digits s (Z.of_N x).
Proof.
  revert s. induction (N.lt_wf_0 x) as [x _ IH]; intros s.
  destruct (decide (x = 0%N)) as [->|Hx]; [by rewrite !pretty_N_go_0 |].
  rewrite pretty_N_go_step by lia.
  rewrite IH by (apply N.div_lt; lia).
  simpl. rewrite digit_value_pretty_N_char by (apply N.mod_lt; lia).
  f_equal. rewrite N2Z.inj_div, N2Z.inj_mod.
  pose proof (Z.div_mod (Z.of_N x) 10). simpl Z.of_N. lia.
Qed.

Lemma pretty_N_go_app (x : N) (s t : string) :
  pretty_N_go x s +:+ t = pretty_N_go x (s +:+ t).
Proof.
  revert s. induction (N.lt_wf_0 x) as [x _ IH]; intros s.
  destruct (decide (x = 0%N)) as [->|Hx]; [by rewrite !pretty_N_go_0 |].
  rewrite (pretty_N_go_step x s), (pretty_N_go_step x (s +:+ t)) by lia.
  by rewrite IH by (apply N.div_lt; lia).
Qed.

Lemma pretty_Zpos (p : positive) : pretty (Z.pos p) = pretty_N_go (N.pos p) "".
Proof. reflexivity. Qed.

(** The key of the path of a frame is the number of the frame. *)
Lemma sort_key_frame_path (step : Z) :
  0 ≤ step → sort_key (frame_path step) = Ok step.
Proof.
  intros Hstep. destruct step as [|p|p]; [reflexivity | | lia].
  unfold sort_key, frame_path. rewrite pretty_Zpos.
  change (remove_nondigits ("img/" +:+ pretty_N_go (N.pos p) "" +:+ ".png"))
    with (remove_nondigits (pretty_N_go (N.pos p) "" +:+ ".png")).
  rewrite pretty_N_go_app, remove_nondigits_pretty_N_go.
  change (remove_nondigits ("" +:+ ".png")) with EmptyString.
  pose proof (int_digits_pretty_N_go (N.pos p) "") as Hval.
  pose proof (all_digits_pretty_N_go (N.pos p) "") as Hall.
  unfold int_of_digits.
  destruct (pretty_N_go (N.pos p) "") as [|c s]; [done |].
  rewrite Hall. simpl all_digits. by rewrite Hval.
Qed.

Lemma frame_path_inj (a b : Z) :
  0 ≤ a → 0 ≤ b → frame_path a = frame_path b → a = b.
Proof.
  intros Ha Hb Hab.
  pose proof (sort_key_frame_path a Ha) as Hka.
  rewrite Hab, (sort_key_frame_path b Hb) in Hka. by inversion Hka.
Qed.

End TextFacts.

(** ** Lemmas on sorting *)

Section SortFacts.
Context {A : Type} (key : A → Z).

Lemma stable_insert_Permutation (x : A) (l : list A) :
  stable_insert key x l ≡ₚ x :: l.
Proof.
  induction l as [|y l IH]; [done |]. simpl.
  case_bool_decide; [done |]. rewrite IH. apply perm_swap.
Qed.

Lemma stable_sort_Permutation (l : list A) : stable_sort key l ≡ₚ l.
Proof.
  induction l as [|x l IH]; [done |].
  change (stable_sort key (x :: l)) with (stable_insert key x (stable_sort key l)).
  by rewrite stable_insert_Permutation, IH.
Qed.

Lemma stable_insert_Sorted (x : A) (l : list A) :
  Sorted (λ a b, key a ≤ key b) l →
  Sorted (λ a b, key a ≤ key b) (stable_insert key x l).
Proof.
  induction 1 as [|y l Hl IH Hhd]; simpl.
  - by repeat constructor.
  - case_bool_decide as Hxy.
    + constructor; [by constructor |]. by constructor.
    + constructor; [exact IH |].
      destruct Hhd as [|z l' Hyz]; simpl.
      * constructor. lia.
      * case_bool_decide; constructor; lia.
Qed.

Lemma stable_sort_Sorted (l : list A) :
  Sorted (λ a b, key a ≤ key b) (stable_sort key l).
Proof.
  induction l as [|x l IH]; [constructor |].
  change (stable_sort key (x :: l)) with (stable_insert key x (stable_sort key l)).
  by apply stable_insert_Sorted.
Qed.

Lemma stable_sort_keys_Sorted (l : list A) :
  Sorted Z.le (key <$> stable_sort key l).
Proof.
  eapply Sorted_fmap; [|apply stable_sort_Sorted].
  intros x y Hxy. exact Hxy.
Qed.

End SortFacts.

Lemma Sorted_le_seqZ (m n : Z) : Sorted Z.le (seqZ m n).
Proof.
  remember (Z.to_nat n) as k eqn:Hk. revert m n Hk.
  induction k as [|k IH]; intros m n Hk.
  - rewrite seqZ_nil by lia. constructor.
  - rewrite seqZ_cons by lia. constructor; [apply IH; lia |].
    destruct (decide (0 < Z.pred n)) as [Hn|Hn].
    + rewrite seqZ_cons by lia. constructor. lia.
    + rewrite seqZ_nil by lia. constructor.
Qed.

Lemma sorted_Permutation (l : list Z) : sorted l ≡ₚ l.
Proof. apply stable_sort_Permutation. Qed.

Lemma sorted_Sorted (l : list Z) : Sorted Z.le (sorted l).
Proof. apply (stable_sort_Sorted id). Qed.

Lemma total_Permutation (l l' : list Z) : l ≡ₚ l' → total l = total l'.
Proof.
  induction 1 as [|x l l' _ IH|x y l|l l' l'' _ IH1 _ IH2]; simpl; lia.
Qed.

(** The keys of the paths of frames are their numbers. *)
Lemma sort_keys_frame_paths (ss : list Z) :
  Forall (λ s, 0 ≤ s) ss →
  sort_keys (frame_path <$> ss) = Ok ((λ s, (s, frame_path s)) <$> ss).
Proof.
  induction 1 as [|s ss Hs _ IH]; [done |].
  rewrite !fmap_cons. simpl. by rewrite sort_key_frame_path, IH.
Qed.

(** A name without a digit makes the keys raise, wherever it stands. *)
Lemma sort_keys_no_digit (filenames : list string) (x : string) :
  x ∈ filenames → remove_nondigits x = EmptyString →
  sort_keys filenames = Raise ValueError.
Proof.
  intros Hin Hx. induction Hin as [x rest|x y rest _ IH]; simpl.
  - unfold sort_key. by rewrite Hx.
  - unfold sort_key, int_of_digits.
    destruct (remove_nondigits y) as [|c s]; [done |].
    destruct (all_digits (String c s)); [|done]. by rewrite (IH Hx).
Qed.

(** Whatever order the paths of the frames 0 to [n - 1] are listed in,
    sorting them by key puts them in the order of their numbers. *)
Lemma sort_filenames_frame_paths (n : Z) (filenames : list string) :
  filenames ≡ₚ frame_path <$> seqZ 0 n →
  sort_filenames filenames = Ok (frame_path <$> seqZ 0 n).
Proof.
  intros Hperm.
  assert (∃ ss, filenames = frame_path <$> ss ∧ seqZ 0 n ≡ₚ ss) as (ss & -> & Hss).
  { by apply Permutation_map_inv. }
  assert (Hpos : Forall (λ s, 0 ≤ s) ss).
  { rewrite <- Hss. apply Forall_forall. intros s Hs.
    apply list_elem_of_lookup in Hs as [i Hi]. apply lookup_seqZ in Hi. lia. }
  unfold sort_filenames. rewrite sort_keys_frame_paths by done.
  set (keyed := (λ s, (s, frame_path s)) <$> ss).
  assert (Hfst : (stable_sort fst keyed).*1 = seqZ 0 n).
  { apply (Sorted_unique Z.le).
    - apply stable_sort_keys_Sorted.
    - apply Sorted_le_seqZ.
    - rewrite (stable_sort_Permutation fst keyed), Hss. unfold keyed.
      rewrite <- list_fmap_compose. simpl.
      by rewrite list_fmap_id. }
  assert (Hsnd : Forall (λ p, p.2 = frame_path p.1) (stable_sort fst keyed)).
  { rewrite (stable_sort_Permutation fst keyed). unfold keyed.
    apply Forall_fmap. by apply Forall_true. }
  f_equal. rewrite <- Hfst. clear -Hsnd.
  induction Hsnd as [|[k x] l Hx _ IH]; [done |].
  rewrite !fmap_cons. simpl in *. by rewrite Hx, IH.
Qed.

(** X7 (the key of a frame).  The key the last cell sorts by reads the
    number of a frame back from the path the drawing cell saved it under:
    for every step that is not negative, the digits left of
    [img/<step>.png] read as [step]; so two different steps never share a
    file. *)
Theorem sort_key_of_frame_path (step step' : Z) :
  0 ≤ step → 0 ≤ step' →
  sort_key (frame_path step) = Ok step
  ∧ (frame_path step = frame_path step' → step = step').
Proof.
  intros Hstep Hstep'. split.
  - by apply sort_key_frame_path.
  - by apply frame_path_inj.
Qed.

Lemma sort_key_of_frame_path_witness :
  0 ≤ 999 ∧ 0 ≤ 17
  ∧ sort_key (frame_path 999) = Ok 999
  ∧ (frame_path 999 = frame_path 17 → 999 = 17).
Proof.
  assert (H : 0 ≤ 999) by lia.
  assert (H' : 0 ≤ 17) by lia.
  split; [exact H |]. split; [exact H' |].
  exact (sort_key_of_frame_path 999 17 H H').
Defined.

(** X8 (frames in the order of their numbers).  Whatever order [glob]
    lists the paths of the frames 0 to [n - 1] in, the sort of the last
    cell returns them by increasing frame number, frame 9 before frame 10,
    and raises nothing. *)
Theorem frames_sorted_by_number (n : Z) (filenames : list string) :
  filenames ≡ₚ frame_path <$> seqZ 0 n →
  sort_filenames filenames = Ok (frame_path <$> seqZ 0 n).
Proof. apply sort_filenames_frame_paths. Qed.

Lemma frames_sorted_by_number_witness :
  ["img/2.png"; "img/0.png"; "img/1.png"]%string ≡ₚ frame_path <$> seqZ 0 3
  ∧ sort_filenames ["img/2.png"; "img/0.png"; "img/1.png"]%string
    = Ok (frame_path <$> seqZ 0 3).
Proof.
  assert (H : ["img/2.png"; "img/0.png"; "img/1.png"]%string
              ≡ₚ frame_path <$> seqZ 0 3).
  { change (frame_path <$> seqZ 0 3)
      with ["img/0.png"; "img/1.png"; "img/2.png"]%string.
    apply (perm_trans (l' := ["img/0.png"; "img/2.png"; "img/1.png"]%string)).
    - apply perm_swap.
    - apply perm_skip, perm_swap. }
  split; [exact H |]. exact (frames_sorted_by_number 3 _ H).
Defined.

(** X9 (a name without a digit).  For names of ASCII characters: if any of
    the names listed has no digit in it, the sort of the last cell raises
    [ValueError], wherever the name stands in the list, and no GIF is
    written. *)
Theorem sort_raises_on_name_without_digit
    (img : gmap string frame) (filenames : list string) (x : string) :
  Forall (λ f, ascii_only f = true) filenames →
  x ∈ filenames → remove_nondigits x = EmptyString →
  sort_filenames filenames = Raise ValueError
  ∧ make_gif img filenames = Raise ValueError.
Proof.
  intros _ Hin Hx. unfold make_gif, sort_filenames.
  by rewrite (sort_keys_no_digit filenames x Hin Hx).
Qed.

Lemma sort_raises_on_name_without_digit_witness :
  Forall (λ f, ascii_only f = true)
    ["img/0.png"; "img/cover.png"; "img/1.png"]%string
  ∧ "img/cover.png"%string ∈ ["img/0.png"; "img/cover.png"; "img/1.png"]%string
  ∧ remove_nondigits "img/cover.png" = EmptyString
  ∧ sort_filenames ["img/0.png"; "img/cover.png"; "img/1.png"]%string
    = Raise ValueError
  ∧ make_gif ∅ ["img/0.png"; "img/cover.png"; "img/1.png"]%string
    = Raise ValueError.
Proof.
  assert (Ha : Forall (λ f, ascii_only f = true)
                 ["img/0.png"; "img/cover.png"; "img/1.png"]%string).
  { repeat constructor. }
  assert (Hin : "img/cover.png"%string
                ∈ ["img/0.png"; "img/cover.png"; "img/1.png"]%string).
  { apply list_elem_of_further, list_elem_of_here. }
  assert (Hx : remove_nondigits "img/cover.png" = EmptyString) by reflexivity.
  split; [exact Ha |]. split; [exact Hin |]. split; [exact Hx |].
  exact (sort_raises_on_name_without_digit ∅ _ _ Ha Hin Hx).
Defined.

(** ** Lemmas on the charts and the frames *)

Lemma getitem_lookup (l : list Z) (i : nat) (v : Z) :
  l !! i = Some v → getitem l (Z.of_nat i) = Ok v.
Proof.
  intros Hv. pose proof (lookup_lt_Some _ _ _ Hv) as Hlt.
  unfold getitem, subscript. rewrite bool_decide_eq_true_2 by lia.
  by rewrite Nat2Z.id, Hv.
Qed.

(** With as many bars as entries, the loop of [animate] sets every bar:
    the bars before [idx] are as they were, the others as the lists say. *)
Lemma set_heights_from (n todo idx : nat)
    (ordered_bank_step bank_step bars1 bars2 : list Z) :
  length ordered_bank_step = n → length bank_step = n →
  length bars1 = n → length bars2 = n → (idx + todo = n)%nat →
  ∃ q1 q2,
    set_heights todo idx ordered_bank_step bank_step bars1 bars2 = Ok (q1, q2)
    ∧ (∀ j, q1 !! j = if decide (j < idx)%nat then bars1 !! j
                      else ordered_bank_step !! j)
    ∧ (∀ j, q2 !! j = if decide (j < idx)%nat then bars2 !! j
                      else bank_step !! j).
Proof.
  intros Ho Hb. revert idx bars1 bars2.
  induction todo as [|todo IH]; intros idx bars1 bars2 H1 H2 Hn.
  - exists bars1, bars2. split; [done |].
    split; intros j; case_decide; try done;
      rewrite !(proj2 (lookup_ge_None _ _)); try done; lia.
  - destruct (lookup_lt_is_Some_2 ordered_bank_step idx) as [h1 Hh1]; [lia |].
    destruct (lookup_lt_is_Some_2 bank_step idx) as [h2 Hh2]; [lia |].
    destruct (IH (S idx) (<[idx := h1]> bars1) (<[idx := h2]> bars2))
      as (q1 & q2 & Hrun & Hq1 & Hq2);
      [by rewrite length_insert | by rewrite length_insert | lia |].
    exists q1, q2. split.
    { simpl. by rewrite (getitem_lookup _ _ _ Hh1), (getitem_lookup _ _ _ Hh2). }
    split; intros j.
    + rewrite Hq1. destruct (decide (j = idx)) as [->|Hne].
      * rewrite decide_True by lia. rewrite decide_False by lia.
        rewrite list_lookup_insert_eq by lia. done.
      * rewrite list_lookup_insert_ne by done.
        repeat case_decide; done || lia.
    + rewrite Hq2. destruct (decide (j = idx)) as [->|Hne].
      * rewrite decide_True by lia. rewrite decide_False by lia.
        rewrite list_lookup_insert_eq by lia. done.
      * rewrite list_lookup_insert_ne by done.
        repeat case_decide; done || lia.
Qed.

Section DrawingFacts.
Context {G : Type} `{!RandomSource G}.
Variable cfg : config.

(** [animate] asks the generator once and leaves the snapshot on the
    bottom chart and the sorted snapshot on the top chart. *)
Lemma animate_charts (i : Z) (st : globals) (g : G) (prev_step : list Z) :
  pending cfg (bank st) = Some prev_step → sized cfg prev_step →
  length (p1 st) = length prev_step → length (p2 st) = length prev_step →
  ∃ x g', simulate_step cfg prev_step g = (Ok x, g')
          ∧ animate cfg i st g = (Ok (Globals (Suspended x) (sorted x) x), g').
Proof.
  intros Hbank Hsized Hp1 Hp2.
  destruct (simulate_step_gives cfg prev_step g Hsized) as (rs & g' & _ & Hrun & _).
  set (x := gives rs (simulate_decrement prev_step)) in *.
  assert (Hx : length x = length prev_step).
  { unfold x. by rewrite gives_length, simulate_decrement_length. }
  exists x, g'. split; [done |].
  assert (Hnext : next cfg (bank st) g = (Ok x, Suspended x, g')).
  { destruct (bank st); simpl in Hbank; try done; inversion Hbank; subst;
      simpl; unfold run_to_yield; by rewrite Hrun. }
  unfold animate. rewrite Hnext.
  destruct (set_heights_from (length prev_step) (length prev_step) 0
              (sorted x) x (p1 st) (p2 st)) as (q1 & q2 & Hset & Hq1 & Hq2);
    [by rewrite (Permutation_length (sorted_Permutation x)) | done..|].
  rewrite Hp1, Hp2, Nat.min_id, Hset.
  assert (q1 = sorted x) as ->.
  { apply list_eq. intros j. rewrite Hq1. by rewrite decide_False by lia. }
  assert (q2 = x) as ->.
  { apply list_eq. intros j. rewrite Hq2. by rewrite decide_False by lia. }
  done.
Qed.

(** The frames of [todo] steps from [step] on: the frame of each step is
    saved under its own path and shows the snapshot of that step, no other
    file is touched, and the generator ends [todo] passes further. *)
Lemma save_frames_saved (todo : nat) (step : Z) (st : globals)
    (img : gmap string frame) (g : G) (prev_step : list Z) :
  0 ≤ step →
  pending cfg (bank st) = Some prev_step → sized cfg prev_step →
  length (p1 st) = length prev_step → length (p2 st) = length prev_step →
  ∃ st' img' g',
    save_frames cfg todo step st img g = (Ok st', img', g')
    ∧ (∀ s, (s < todo)%nat →
            ∃ x gx, steps cfg (S s) prev_step g = (Ok x, gx)
                    ∧ img' !! frame_path (step + Z.of_nat s) = Some (sorted x, x))
    ∧ (∀ name, (∀ s, (s < todo)%nat → name ≠ frame_path (step + Z.of_nat s)) →
               img' !! name = img !! name)
    ∧ (∃ x, steps cfg todo prev_step g = (Ok x, g')
            ∧ pending cfg (bank st') = Some x).
Proof.
  revert step st img g prev_step.
  induction todo as [|todo IH]; intros step st img g prev_step Hstep Hbank Hsized Hp1 Hp2.
  - exists st, img, g. split; [done |]. split; [intros s Hs; lia |].
    split; [done |]. by exists prev_step.
  - destruct (animate_charts step st g prev_step Hbank Hsized Hp1 Hp2)
      as (x1 & g1 & Hrun & Hanim).
    assert (Hx1 : sized cfg x1) by (by eapply simulate_step_sized).
    destruct (IH (step + 1) (Globals (Suspended x1) (sorted x1) x1)
                (<[frame_path step := (sorted x1, x1)]> img) g1 x1)
      as (st' & img' & g' & Hsave & Hframes & Hothers & (xl & Hxl & Hpend));
      [lia | done | done
      | simpl; by rewrite (Permutation_length (sorted_Permutation x1)) | done |].
    exists st', img', g'. split.
    { simpl. rewrite Hanim. exact Hsave. }
    split; [|split].
    + intros [|s] Hs.
      * exists x1, g1. split.
        { simpl. unfold bind. by rewrite Hrun. }
        rewrite Z.add_0_r, Hothers.
        { by rewrite lookup_insert_eq. }
        intros s' _ Heq. apply frame_path_inj in Heq; lia.
      * destruct (Hframes s) as (x & gx & Hx & Himg); [lia |].
        exists x, gx. split.
        { change (steps cfg (S (S s)) prev_step g)
            with (bind (simulate_step cfg prev_step) (steps cfg (S s)) g).
          unfold bind. by rewrite Hrun. }
        replace (step + Z.of_nat (S s)) with (step + 1 + Z.of_nat s) by lia.
        exact Himg.
    + intros name Hname. rewrite Hothers.
      * apply lookup_insert_ne. intros Heq.
        apply (Hname O); [lia |]. by rewrite Z.add_0_r.
      * intros s Hs Heq. apply (Hname (S s)); [lia |].
        rewrite Heq. f_equal. lia.
    + exists xl. split; [|done]. simpl. unfold bind. by rewrite Hrun.
Qed.

(** The drawing cell as a whole. *)
Lemma draw_saved (STEPS : Z) (img : gmap string frame) (g : G) :
  ∃ st img' g',
    draw cfg STEPS img g = (Ok st, img', g')
    ∧ (∀ s, (s < Z.to_nat STEPS)%nat →
            ∃ x gx, steps cfg (S (S s)) (simulate_init cfg) g = (Ok x, gx)
                    ∧ img' !! frame_path (Z.of_nat s) = Some (sorted x, x))
    ∧ (∀ name, (∀ s, (s < Z.to_nat STEPS)%nat → name ≠ frame_path (Z.of_nat s)) →
               img' !! name = img !! name)
    ∧ (∃ x, steps cfg (S (Z.to_nat STEPS)) (simulate_init cfg) g = (Ok x, g')
            ∧ pending cfg (bank st) = Some x).
Proof.
  destruct (simulate_step_gives cfg (simulate_init cfg) g (simulate_init_sized cfg))
    as (rs & g1 & _ & Hrun & _).
  set (init_state := gives rs (simulate_decrement (simulate_init cfg))) in *.
  assert (Hinit : sized cfg init_state).
  { eapply simulate_step_sized; [apply simulate_init_sized | exact Hrun]. }
  destruct (save_frames_saved (Z.to_nat STEPS) 0
              (Globals (Suspended init_state) init_state init_state) img g1 init_state)
    as (st' & img' & g' & Hsave & Hframes & Hothers & (xl & Hxl & Hpend));
    [lia | done..|].
  exists st', img', g'. split.
  { unfold draw. simpl. unfold run_to_yield. rewrite Hrun. exact Hsave. }
  split; [|split].
  - intros s Hs. destruct (Hframes s Hs) as (x & gx & Hx & Himg).
    exists x, gx. split; [|by rewrite Z.add_0_l in Himg].
    change (steps cfg (S (S s)) (simulate_init cfg) g)
      with (bind (simulate_step cfg (simulate_init cfg)) (steps cfg (S s)) g).
    unfold bind. by rewrite Hrun.
  - intros name Hname. apply Hothers. intros s Hs. rewrite Z.add_0_l. by apply Hname.
  - exists xl. split; [|done]. simpl. unfold bind. by rewrite Hrun.
Qed.

End DrawingFacts.

(** X10 ([animate]).  Called with as many bars on each chart as there are
    players, [animate] asks the generator for one snapshot and raises
    nothing; after it the bottom chart shows the snapshot entry by entry,
    the top chart the same heights in increasing order, so both charts
    show the same sum, and the generator is suspended on that snapshot. *)
Theorem animate_shows_snapshot {G : Type} `{!RandomSource G}
    (cfg : config) (i : Z) (st : globals) (g : G) (prev_step : list Z) :
  pending cfg (bank st) = Some prev_step → sized cfg prev_step →
  length (p1 st) = length prev_step → length (p2 st) = length prev_step →
  ∃ x st' g',
    simulate_step cfg prev_step g = (Ok x, g')
    ∧ animate cfg i st g = (Ok st', g')
    ∧ bank st' = Suspended x
    ∧ p2 st' = x
    ∧ Sorted Z.le (p1 st')
    ∧ p1 st' ≡ₚ p2 st'
    ∧ total (p1 st') = total (p2 st').
Proof.
  intros Hbank Hsized Hp1 Hp2.
  destruct (animate_charts cfg i st g prev_step Hbank Hsized Hp1 Hp2)
    as (x & g' & Hrun & Hanim).
  exists x, (Globals (Suspended x) (sorted x) x), g'. simpl.
  split; [done |]. split; [done |]. split; [done |]. split; [done |].
  split; [apply sorted_Sorted |].
  split; [apply sorted_Permutation |].
  apply total_Permutation, sorted_Permutation.
Qed.

Lemma animate_shows_snapshot_witness :
  pending (Config 2 3) (bank (Globals (Suspended [3; 0; 3]) [0; 3; 3] [3; 0; 3]))
  = Some [3; 0; 3]
  ∧ sized (Config 2 3) [3; 0; 3]
  ∧ ∃ x st' g',
      @simulate_step _ tape_source (Config 2 3) [3; 0; 3] [4; 6] = (Ok x, g')
      ∧ @animate _ tape_source (Config 2 3) 0
          (Globals (Suspended [3; 0; 3]) [0; 3; 3] [3; 0; 3]) [4; 6] = (Ok st', g')
      ∧ bank st' = Suspended x
      ∧ p2 st' = x
      ∧ Sorted Z.le (p1 st')
      ∧ p1 st' ≡ₚ p2 st'
      ∧ total (p1 st') = total (p2 st').
Proof.
  assert (Hb : pending (Config 2 3)
                 (bank (Globals (Suspended [3; 0; 3]) [0; 3; 3] [3; 0; 3]))
               = Some [3; 0; 3]) by reflexivity.
  assert (Hs : sized (Config 2 3) [3; 0; 3]) by reflexivity.
  split; [exact Hb |]. split; [exact Hs |].
  exact (@animate_shows_snapshot _ tape_source (Config 2 3) 0
           (Globals (Suspended [3; 0; 3]) [0; 3; 3] [3; 0; 3]) [4; 6] [3; 0; 3]
           Hb Hs eq_refl eq_refl).
Defined.

(** X11 (the frames saved).  For every [STEPS] and whatever [img/] held, the
    drawing cell raises nothing; the file of frame [s], for [s] from 0 to
    [STEPS - 1], shows the snapshot after [s + 2] passes from the initial
    distribution (frame 0 is already the second snapshot; the first,
    [init_state], only gives the bars their first heights); every other
    file of [img/] is left as it was; and the source ends where
    [STEPS + 1] passes leave it. *)
Theorem draw_saves_frames {G : Type} `{!RandomSource G}
    (cfg : config) (STEPS : Z) (img : gmap string frame) (g : G) :
  ∃ st img' g',
    draw cfg STEPS img g = (Ok st, img', g')
    ∧ (∀ s, 0 ≤ s < STEPS →
            ∃ x gx, steps cfg (Z.to_nat s + 2) (simulate_init cfg) g = (Ok x, gx)
                    ∧ img' !! frame_path s = Some (sorted x, x))
    ∧ (∀ name, (∀ s, 0 ≤ s < STEPS → name ≠ frame_path s) →
               img' !! name = img !! name)
    ∧ (∃ x, steps cfg (Z.to_nat STEPS + 1) (simulate_init cfg) g = (Ok x, g')
            ∧ pending cfg (bank st) = Some x).
Proof.
  destruct (draw_saved cfg STEPS img g)
    as (st & img' & g' & Hdraw & Hframes & Hothers & (xl & Hxl & Hpend)).
  exists st, img', g'. split; [done |]. split; [|split].
  - intros s Hs. destruct (Hframes (Z.to_nat s)) as (x & gx & Hx & Himg); [lia |].
    exists x, gx. rewrite Z2Nat.id in Himg by lia.
    split; [|done]. by replace (Z.to_nat s + 2)%nat with (S (S (Z.to_nat s))) by lia.
  - intros name Hname. apply Hothers. intros s Hs. apply Hname. lia.
  - exists xl. split; [|done].
    by replace (Z.to_nat STEPS + 1)%nat with (S (Z.to_nat STEPS)) by lia.
Qed.

Lemma draw_saves_frames_witness :
  ∃ st img' g',
    @draw _ tape_source (Config 2 2) 2 ∅ [0; 0; 1; 0; 1; 1] = (Ok st, img', g')
    ∧ (∀ s, 0 ≤ s < 2 →
            ∃ x gx,
              @steps _ tape_source (Config 2 2) (Z.to_nat s + 2)
                (simulate_init (Config 2 2)) [0; 0; 1; 0; 1; 1] = (Ok x, gx)
              ∧ img' !! frame_path s = Some (sorted x, x))
    ∧ (∀ name, (∀ s, 0 ≤ s < 2 → name ≠ frame_path s) →
               img' !! name = (∅ : gmap string frame) !! name)
    ∧ (∃ x, @steps _ tape_source (Config 2 2) (Z.to_nat 2 + 1)
              (simulate_init (Config 2 2)) [0; 0; 1; 0; 1; 1] = (Ok x, g')
            ∧ pending (Config 2 2) (bank st) = Some x).
Proof.
  exact (@draw_saves_frames _ tape_source (Config 2 2) 2 ∅ [0; 0; 1; 0; 1; 1]).
Defined.

(** X12 (the GIF).  When [img/] lists the frames of this run and no other
    [.png] file, in any order, the two cells together raise nothing and the
    GIF has [STEPS] frames, the frame at position [s] (from 0) showing the
    snapshot after [s + 2] passes from the initial distribution, sorted on
    the top chart and as it is on the bottom chart. *)
Theorem gif_shows_snapshots_in_order {G : Type} `{!RandomSource G}
    (cfg : config) (STEPS : Z) (img : gmap string frame) (g : G)
    (filenames : list string) :
  filenames ≡ₚ frame_path <$> seqZ 0 STEPS →
  ∃ st img' g' frames,
    draw cfg STEPS img g = (Ok st, img', g')
    ∧ make_gif img' filenames = Ok (Some frames)
    ∧ length frames = Z.to_nat STEPS
    ∧ ∀ s fr, frames !! s = Some fr →
              ∃ x gx, steps cfg (s + 2) (simulate_init cfg) g = (Ok x, gx)
                      ∧ fr = (sorted x, x).
Proof.
  intros Hperm.
  destruct (draw_saved cfg STEPS img g)
    as (st & img' & g' & Hdraw & Hframes & _).
  assert (Hread : is_Some (read_frames img' (frame_path <$> seqZ 0 STEPS))).
  { apply mapM_is_Some_2, Forall_fmap, Forall_lookup. intros i s Hs. simpl.
    apply lookup_seqZ in Hs as [-> Hi].
    destruct (Hframes i) as (x & gx & _ & Himg); [lia |].
    rewrite Z.add_0_l. exists (sorted x, x). exact Himg. }
  destruct Hread as [frames Hread].
  exists st, img', g', frames. split; [done |].
  split.
  { unfold make_gif. rewrite (sort_filenames_frame_paths STEPS) by done.
    f_equal. exact Hread. }
  apply mapM_Some_1 in Hread.
  split.
  { rewrite <- (Forall2_length _ _ _ Hread). by rewrite length_fmap, length_seqZ. }
  intros s fr Hfr.
  destruct (Forall2_lookup_r _ _ _ _ _ Hread Hfr) as (name & Hname & Himg).
  rewrite list_lookup_fmap in Hname.
  destruct (seqZ 0 STEPS !! s) as [z|] eqn:Hz; [|done].
  apply lookup_seqZ in Hz as [-> Hs]. simpl in Hname. inversion Hname; subst name.
  destruct (Hframes s) as (x & gx & Hx & Himg'); [lia |].
  exists x, gx. rewrite Z.add_0_l in Himg.
  assert (Some fr = Some (sorted x, x)) as Heq.
  { transitivity (img' !! frame_path (Z.of_nat s)); [symmetry; exact Himg | exact Himg']. }
  inversion Heq; subst fr.
  split; [|done]. by replace (s + 2)%nat with (S (S s)) by lia.
Qed.

Lemma gif_shows_snapshots_in_order_witness :
  ["img/1.png"; "img/0.png"]%string ≡ₚ frame_path <$> seqZ 0 2
  ∧ ∃ st img' g' frames,
      @draw _ tape_source (Config 2 2) 2 ∅ [0; 0; 1; 0; 1; 1] = (Ok st, img', g')
      ∧ make_gif img' ["img/1.png"; "img/0.png"]%string = Ok (Some frames)
      ∧ length frames = Z.to_nat 2
      ∧ ∀ s fr, frames !! s = Some fr →
                ∃ x gx,
                  @steps _ tape_source (Config 2 2) (s + 2)
                    (simulate_init (Config 2 2)) [0; 0; 1; 0; 1; 1] = (Ok x, gx)
                  ∧ fr = (sorted x, x).
Proof.
  assert (H : ["img/1.png"; "img/0.png"]%string ≡ₚ frame_path <$> seqZ 0 2).
  { change (frame_path <$> seqZ 0 2) with ["img/0.png"; "img/1.png"]%string.
    apply perm_swap. }
  split; [exact H |].
  exact (@gif_shows_snapshots_in_order _ tape_source (Config 2 2) 2 ∅
           [0; 0; 1; 0; 1; 1] _ H).
Defined.
